(** * IC Redact: the detection and redaction pipeline of [ic_redact.py]

    A shallow embedding of [WorkerThread.find_pii] and [WorkerThread.run]
    together with the part of Python's [re] module that the two methods
    rely on, followed by the properties of the pipeline.

    Conventions of the embedding.
    - A character is a code point ([char], a number) and a Python [str] is
      the list of its code points ([str]); offsets and lengths count code
      points, as [len] and [m.start()] do.  Type tags and dictionary keys
      that the program writes out as literals are [string]s; [u] turns a
      literal into the [str] it denotes.
    - [re] classifies the characters of a [str] by the Unicode tables of the
      interpreter.  Below 128 the tables are those of ASCII and are written
      out; above they are the fields of [Unicode], about which nothing is
      assumed, so that a statement holds whatever tables the interpreter
      ships.
    - A Python dict used as a map is a [gmap]; the [seen] set of
      [find_pii] is a [gset].
    - Pattern strings are written as syntax trees ([regex]); every tree is
      given next to the pattern text it stands for.
    - [run] is written as a program ([prog]) whose statements are those of
      the method; [exec] runs it on a state that holds the [results] dict
      and the trace of calls made on the document engine, and returns the
      exception, if one leaves the program.
    - The document engine, the file system and the clock are the fields of
      a [World]. Opening a document, saving it and opening the report may
      raise; reading a page, searching it, marking it, writing to the
      report and closing the document are taken to succeed. *)

From Stdlib Require Import Ascii String.
From stdpp Require Import base gmap sets list strings pretty sorting.

(** ** Characters as [re] classifies them *)

Notation char := N (only parsing).
Notation str := (list N) (only parsing).

(** What the interpreter knows of the characters from 128 on: the simple
    lower-case mapping ([_sre.unicode_tolower]), whether a character has
    case ([_sre.unicode_iscased]), the classes behind [\d], [\s] and [\w]
    ([str.isdecimal], [str.isspace], [str.isalnum]), and the table
    [_EXTRA_CASES] of [re]: for a lower-case character, the other
    lower-case characters with the same upper case. *)
Class Unicode : Type := {
  uni_lower : char → char;
  uni_cased : char → bool;
  uni_decimal : char → bool;
  uni_space : char → bool;
  uni_alnum : char → bool;
  uni_fixes : char → list char;
}.

Module Char.

Definition code (c : ascii) : char := N_of_ascii c.

Definition is_ascii (c : char) : bool := (c <? 128)%N.

Definition between (lo hi c : char) : bool := ((lo <=? c) && (c <=? hi))%N.

(** [c] is one of the characters [lo] to [hi]. *)
Definition in_range (lo hi : ascii) (c : char) : bool :=
  between (code lo) (code hi) c.

Section tables.
Context {tables : Unicode}.

(** [\d] *)
Definition is_digit (c : char) : bool :=
  if is_ascii c then in_range "0" "9" c else uni_decimal c.

Definition is_alnum (c : char) : bool :=
  if is_ascii c
  then in_range "0" "9" c || in_range "A" "Z" c || in_range "a" "z" c
  else uni_alnum c.

(** [\w]: what [str.isalnum] accepts, and the underscore. *)
Definition is_word (c : char) : bool := is_alnum c || (c =? code "_")%N.

(** [\s] on a [str] pattern: below 128 these are TAB..CR, FS..US and the
    blank. *)
Definition is_space (c : char) : bool :=
  if is_ascii c then between 9 13 c || between 28 32 c else uni_space c.

Definition lower (c : char) : char :=
  if is_ascii c then (if in_range "A" "Z" c then c + 32 else c)%N
  else uni_lower c.

(** [_sre.unicode_iscased]: below 128, the letters. *)
Definition is_cased (c : char) : bool :=
  if is_ascii c then in_range "A" "Z" c || in_range "a" "z" c
  else uni_cased c.

(** [_EXTRA_CASES]: of the characters below 128 only [i] and [s] have an
    entry, the dotless i (U+0131) and the long s (U+017F). *)
Definition dotless_i : char := 305%N.
Definition long_s : char := 383%N.

Definition fixes (lo : char) : list char :=
  if is_ascii lo
  then (if (lo =? code "i")%N then [dotless_i]
        else if (lo =? code "s")%N then [long_s] else [])
  else uni_fixes lo.

(** The lowered text character [y] against the pattern character [c] in a
    pattern compiled with [re.IGNORECASE]: [y] is the lower case of [c] or
    one of its extra cases. *)
Definition folds_to (c y : char) : bool :=
  (y =? lower c)%N || bool_decide (y ∈ fixes (lower c)).

(** Comparison of a pattern literal with a text character.  With
    [re.IGNORECASE] a literal that has no case is compared as it is, and a
    cased one is compared with the lowered text character. *)
Definition eqb (ic : bool) (c x : char) : bool :=
  if ic && is_cased c then folds_to c (lower x) else (x =? c)%N.

End tables.

End Char.

Coercion Char.code : ascii >-> N.
Arguments Char.code : simpl never.

(** The [str] that a literal of the program denotes; the literals that pass
    through [u] are ASCII. *)
Definition u (s : string) : str := Char.code <$> list_ascii_of_string s.

(** ** Regular expressions *)

(** One member of a bracketed set; the sets of the program are ASCII. *)
Inductive citem : Type :=
  | CChar (c : ascii)
  | CRange (lo hi : ascii)
  | CDigit
  | CSpace
  | CWord.

(** The pattern syntax used by the program.  A parenthesised group only
    groups (no pattern refers back to one), so it has no constructor. *)
Inductive regex : Type :=
  | Eps
  | Lit (c : char)
  | Class (items : list citem)
  | WordB
  | Seq (r1 r2 : regex)
  | Alt (r1 r2 : regex)
  | Rep (lo : nat) (hi : option nat) (r : regex).

Arguments Lit c%_char.

Definition seqs (rs : list regex) : regex := foldr Seq Eps rs.

Fixpoint alts (rs : list regex) : regex :=
  match rs with
  | [] => Class []
  | [r] => r
  | r :: rs' => Alt r (alts rs')
  end.

Definition opt (r : regex) : regex := Rep 0 (Some 1) r.
Definition star (r : regex) : regex := Rep 0 None r.
Definition plus (r : regex) : regex := Rep 1 None r.
Definition times (n : nat) (r : regex) : regex := Rep n (Some n) r.
Definition digit : regex := Class [CDigit].
Definition space : regex := Class [CSpace].

(** The literal characters of [s], one [Lit] each. *)
Definition lits (s : str) : regex := seqs (map Lit s).
Definition word (s : string) : regex := lits (u s).

(** [re.escape(s)] followed by compilation: escaping puts a backslash
    before every character that pattern syntax could read as an operator,
    and the compiler reads each escaped character back as that literal. *)
Definition re_escape (s : str) : regex := lits s.

(** ** The backtracking matcher *)

(** A position in the subject: the character before it (none at the
    start) and the text from it on. *)
Definition cursor : Type := option char * str.

Definition cont : Type := cursor → option cursor.

(** The characters of a range, in order. *)
Definition range_chars (lo hi : ascii) : list char :=
  N.of_nat <$> seq (nat_of_ascii lo) (S (nat_of_ascii hi) - nat_of_ascii lo).

Section pipeline.
Context {tables : Unicode}.

Definition item_match (x : char) (i : citem) : bool :=
  match i with
  | CChar c => (x =? c)%N
  | CRange lo hi => Char.in_range lo hi x
  | CDigit => Char.is_digit x
  | CSpace => Char.is_space x
  | CWord => Char.is_word x
  end.

(** With [re.IGNORECASE] the compiler lowers the members of a set and adds
    their extra cases ([_optimize_charset]); the set is cased when a member
    is. *)
Definition item_cased (i : citem) : bool :=
  match i with
  | CChar c => Char.is_cased c
  | CRange lo hi => existsb Char.is_cased (range_chars lo hi)
  | _ => false
  end.

Definition item_folds (y : char) (i : citem) : bool :=
  match i with
  | CChar c => Char.folds_to c y
  | CRange lo hi => existsb (λ c, Char.folds_to c y) (range_chars lo hi)
  | CDigit => Char.is_digit y
  | CSpace => Char.is_space y
  | CWord => Char.is_word y
  end.

(** A text character against a set: with [re.IGNORECASE] the lowered set
    is asked, about the lowered character when the set is cased and about
    the character as it is otherwise. *)
Definition class_match (ic : bool) (items : list citem) (x : char) : bool :=
  if ic
  then existsb (item_folds (if existsb item_cased items then Char.lower x else x))
         items
  else existsb (item_match x) items.

Definition word_before (c : cursor) : bool :=
  match c.1 with Some p => Char.is_word p | None => false end.

Definition word_after (c : cursor) : bool :=
  match c.2 with x :: _ => Char.is_word x | [] => false end.

(** [\b]: exactly one side of the position is a word character. *)
Definition at_boundary (c : cursor) : bool :=
  xorb (word_before c) (word_after c).

Definition eat (p : char → bool) (k : cont) (c : cursor) : option cursor :=
  match c.2 with
  | x :: xs => if p x then k (Some x, xs) else None
  | [] => None
  end.

(** The optional iterations of a greedy repeat: one more round of the body
    is tried before the rest of the pattern. *)
Fixpoint rep_opt (body : cont → cont) (extra : nat) (k : cont) (c : cursor)
    : option cursor :=
  match extra with
  | 0 => k c
  | S e =>
      match body (rep_opt body e k) c with
      | Some r => Some r
      | None => k c
      end
  end.

(** The mandatory iterations of a repeat. *)
Fixpoint rep_req (body : cont → cont) (lo : nat) (k : cont) : cont :=
  match lo with
  | 0 => k
  | S n => body (rep_req body n k)
  end.

(** [re_match ic r k c]: match [r] at [c], then the rest of the pattern
    [k]; alternatives are tried left to right and repeats are greedy, as
    the engine of [re] does.  An unbounded repeat never needs more rounds
    than characters are left. *)
Fixpoint re_match (ic : bool) (r : regex) (k : cont) (c : cursor)
    : option cursor :=
  match r with
  | Eps => k c
  | Lit a => eat (Char.eqb ic a) k c
  | Class items => eat (class_match ic items) k c
  | WordB => if at_boundary c then k c else None
  | Seq r1 r2 => re_match ic r1 (re_match ic r2 k) c
  | Alt r1 r2 =>
      match re_match ic r1 k c with
      | Some e => Some e
      | None => re_match ic r2 k c
      end
  | Rep lo hi r' =>
      rep_req (re_match ic r') lo
        (λ c', rep_opt (re_match ic r')
                 (match hi with Some h => h - lo | None => length c'.2 end)
                 k c')
        c
  end.

(** The end of the pattern.  A search that must advance refuses the empty
    match at its starting point. *)
Definition accept (must_advance : bool) (c : cursor) : cont :=
  λ e, if must_advance && (length e.2 =? length c.2) then None else Some e.

(** Length of the match of [r] that starts at [c], if there is one. *)
Definition match_at (ic : bool) (r : regex) (must_advance : bool) (c : cursor)
    : option nat :=
  match re_match ic r (accept must_advance c) c with
  | Some e => Some (length c.2 - length e.2)
  | None => None
  end.

(** The scan of [re.finditer]: [(m.start(), m.group())] of the successive
    matches, left to right.  After a match the scan resumes at its end
    ([skip] counts the characters still to step over); after an empty match
    it first looks for a non-empty one at the same place. *)
Fixpoint finditer_go (ic : bool) (r : regex) (skip : nat)
    (prev : option char) (rest : str) (pos : nat)
    : list (nat * str) :=
  match skip with
  | S n =>
      match rest with
      | [] => []
      | x :: xs => finditer_go ic r n (Some x) xs (S pos)
      end
  | 0 =>
      let advance (n : nat) :=
        match rest with
        | [] => []
        | x :: xs => finditer_go ic r (n - 1) (Some x) xs (S pos)
        end in
      match match_at ic r false (prev, rest) with
      | None => advance 1
      | Some 0 =>
          (pos, []) ::
          match match_at ic r true (prev, rest) with
          | None => advance 1
          | Some n => (pos, take n rest) :: advance n
          end
      | Some n => (pos, take n rest) :: advance n
      end
  end.

Definition finditer (r : regex) (text : str) (ic : bool) : list (nat * str) :=
  finditer_go ic r 0 None text 0.

(** ** The pattern tables *)

Definition dash_or_space : regex := Class [CChar "-"; CSpace]%char.
Definition phone_sep : regex := Class [CChar "-"; CChar "."; CSpace]%char.
Definition date_sep : regex := Class [CChar "-"; CChar "/"]%char.

(** [(0?[1-9]|1[0-2])] *)
Definition month_num : regex :=
  Alt (Seq (opt (Lit "0")) (Class [CRange "1" "9"]))
      (Seq (Lit "1") (Class [CRange "0" "2"]))%char.

(** [(0?[1-9]|[12]\d|3[01])] *)
Definition day_num : regex :=
  alts [ Seq (opt (Lit "0")) (Class [CRange "1" "9"]);
         Seq (Class [CChar "1"; CChar "2"]) digit;
         Seq (Lit "3") (Class [CChar "0"; CChar "1"]) ]%char.

(** [(19|20)\d{2}] *)
Definition century : regex := Alt (word "19") (word "20").
Definition year : regex := Seq century (times 2 digit).

Definition month_name : regex :=
  alts (word <$> ["Jan"; "Feb"; "Mar"; "Apr"; "May"; "Jun";
                  "Jul"; "Aug"; "Sep"; "Oct"; "Nov"; "Dec"]).

Definition street_suffix : regex :=
  alts (word <$> ["Street"; "St"; "Avenue"; "Ave"; "Road"; "Rd";
                  "Boulevard"; "Blvd"; "Drive"; "Dr"; "Lane"; "Ln";
                  "Way"; "Court"; "Ct"]).

Definition email_local : list citem :=
  [CRange "A" "Z"; CRange "a" "z"; CRange "0" "9";
   CChar "."; CChar "_"; CChar "%"; CChar "+"; CChar "-"]%char.
Definition email_domain : list citem :=
  [CRange "A" "Z"; CRange "a" "z"; CRange "0" "9"; CChar "."; CChar "-"]%char.
Definition email_tld : list citem :=
  [CRange "A" "Z"; CChar "|"; CRange "a" "z"]%char.

(** [\b\d{3}-\d{2}-\d{4}\b] and [\b\d{3}\s\d{2}\s\d{4}\b] *)
Definition SSN_PATTERNS : list regex :=
  [ seqs [WordB; times 3 digit; Lit "-"; times 2 digit; Lit "-";
          times 4 digit; WordB];
    seqs [WordB; times 3 digit; space; times 2 digit; space;
          times 4 digit; WordB] ]%char.

(** [\b\(?\d{3}\)?[-.\s]?\d{3}[-.\s]?\d{4}\b] *)
Definition PHONE_PATTERNS : list regex :=
  [ seqs [WordB; opt (Lit "("); times 3 digit; opt (Lit ")"); opt phone_sep;
          times 3 digit; opt phone_sep; times 4 digit; WordB] ]%char.

(** [\b[A-Za-z0-9._%+-]+@[A-Za-z0-9.-]+\.[A-Z|a-z]{2,}\b] *)
Definition EMAIL_PATTERNS : list regex :=
  [ seqs [WordB; plus (Class email_local); Lit "@"; plus (Class email_domain);
          Lit "."; Rep 2 None (Class email_tld); WordB] ]%char.

(** [\b\d{4}[-\s]?\d{4}[-\s]?\d{4}[-\s]?\d{4}\b] *)
Definition CREDIT_CARD_PATTERNS : list regex :=
  [ seqs [WordB; times 4 digit; opt dash_or_space; times 4 digit;
          opt dash_or_space; times 4 digit; opt dash_or_space; times 4 digit;
          WordB] ].

(** [\b\d{8,17}\b] *)
Definition BANK_ACCOUNT_PATTERNS : list regex :=
  [ seqs [WordB; Rep 8 (Some 17) digit; WordB] ].

(** [\b(0?[1-9]|1[0-2])[-/](0?[1-9]|[12]\d|3[01])[-/](19|20)\d{2}\b],
    [\b(19|20)\d{2}[-/](0?[1-9]|1[0-2])[-/](0?[1-9]|[12]\d|3[01])\b] and
    [\b(Jan|...|Dec)[a-z]*\.?\s+\d{1,2},?\s+(19|20)\d{2}\b] *)
Definition DOB_MDY : regex :=
  seqs [WordB; month_num; date_sep; day_num; date_sep; year; WordB].
Definition DOB_YMD : regex :=
  seqs [WordB; year; date_sep; month_num; date_sep; day_num; WordB].
Definition DOB_MONTH : regex :=
  seqs [WordB; month_name; star (Class [CRange "a" "z"]); opt (Lit ".");
        plus space; Rep 1 (Some 2) digit; opt (Lit ","); plus space;
        year; WordB]%char.
Definition DATE_OF_BIRTH_PATTERNS : list regex := [DOB_MDY; DOB_YMD; DOB_MONTH].

(** [\b\d{1,5}\s+[\w\s]{1,30}\s+(Street|...|Ct)\.?\b] and
    [\b[A-Z][a-z]+,?\s+[A-Z]{2}\s+\d{5}(-\d{4})?\b] *)
Definition ADDRESS_PATTERNS : list regex :=
  [ seqs [WordB; Rep 1 (Some 5) digit; plus space;
          Rep 1 (Some 30) (Class [CWord; CSpace]); plus space;
          street_suffix; opt (Lit "."); WordB];
    seqs [WordB; Class [CRange "A" "Z"]; plus (Class [CRange "a" "z"]);
          opt (Lit ","); plus space; times 2 (Class [CRange "A" "Z"]);
          plus space; times 5 digit; opt (Seq (Lit "-") (times 4 digit));
          WordB] ]%char.

(** The dict [PII_PATTERNS]; the program reads it at these seven keys. *)
Definition PII_PATTERNS (key : string) : list regex :=
  if String.eqb key "SSN" then SSN_PATTERNS
  else if String.eqb key "PHONE" then PHONE_PATTERNS
  else if String.eqb key "EMAIL" then EMAIL_PATTERNS
  else if String.eqb key "CREDIT_CARD" then CREDIT_CARD_PATTERNS
  else if String.eqb key "BANK_ACCOUNT" then BANK_ACCOUNT_PATTERNS
  else if String.eqb key "DATE_OF_BIRTH" then DATE_OF_BIRTH_PATTERNS
  else if String.eqb key "ADDRESS" then ADDRESS_PATTERNS
  else [].

Definition COMMON_NAMES : list string :=
  [ "James"; "John"; "Robert"; "Michael"; "William"; "David"; "Richard";
    "Joseph"; "Thomas"; "Charles";
    "Mary"; "Patricia"; "Jennifer"; "Linda"; "Barbara"; "Elizabeth"; "Susan";
    "Jessica"; "Sarah"; "Karen";
    "Christopher"; "Daniel"; "Matthew"; "Anthony"; "Mark"; "Donald"; "Steven";
    "Paul"; "Andrew"; "Joshua" ].

(** ** Detections and the worker object *)

(** The dict built for a match.  [find_pii] leaves the key [page] out and
    [run] adds it, so the field is optional. *)
Record detection : Type := Detection {
  d_text : str;
  d_type : string;
  d_start : nat;
  d_page : option nat;
}.

Global Instance detection_eq_dec : EqDecision detection.
Proof. solve_decision. Defined.

(** The fields [__init__] stores; [is_preview] is computed from
    [output_dir] there and never assigned again. *)
Record WorkerThread : Type := Worker {
  files : list str;
  detection_cfg : gmap string bool;
  custom_words : list str;
  output_dir : option str;
  preview_data : gmap str (list detection);
  output_mode : string;
}.

Definition is_preview (self : WorkerThread) : bool :=
  bool_decide (output_dir self = None).

(** [self.detection.get(key)] in a condition. *)
Definition enabled (self : WorkerThread) (key : string) : bool :=
  default false (detection_cfg self !! key).

(** ** [find_pii] *)

(** [for m in re.finditer(p, text, flags): detections.append(...)] *)
Definition hits (ty : string) (ic : bool) (text : str) (p : regex)
    : list detection :=
  (λ m : nat * str, Detection m.2 ty m.1 None) <$> finditer p text ic.

(** [if self.detection.get(key): for p in PII_PATTERNS[table]: ...] *)
Definition category (self : WorkerThread) (key table ty : string) (ic : bool)
    (text : str) : list detection :=
  if enabled self key
  then PII_PATTERNS table ≫= hits ty ic text
  else [].

Definition name_pattern (name : string) : regex :=
  Seq WordB (Seq (re_escape (u name)) WordB).

(** [for word in self.custom_words: for m in re.finditer(re.escape(word),
    text, re.IGNORECASE): ...] *)
Definition custom_hits (self : WorkerThread) (text : str) : list detection :=
  custom_words self ≫= (λ w, hits "CUSTOM" true text (re_escape w)).

(** The list [detections] as it stands before the sort. *)
Definition candidates (self : WorkerThread) (text : str) : list detection :=
  category self "ssn" "SSN" "SSN" false text
  ++ category self "phone" "PHONE" "PHONE" false text
  ++ category self "email" "EMAIL" "EMAIL" true text
  ++ category self "credit_card" "CREDIT_CARD" "CREDIT_CARD" false text
  ++ category self "bank" "BANK_ACCOUNT" "BANK_ACCOUNT" false text
  ++ category self "dob" "DATE_OF_BIRTH" "DOB" true text
  ++ category self "address" "ADDRESS" "ADDRESS" true text
  ++ (if enabled self "names"
      then COMMON_NAMES ≫= (λ name, hits "NAME" true text (name_pattern name))
      else [])
  ++ custom_hits self text.

(** [sorted(l, key=...)]: the sort is stable, an element goes before the
    ones of equal key that came after it. *)
Fixpoint insert_by {A} (key : A → nat) (x : A) (l : list A) : list A :=
  match l with
  | [] => [x]
  | y :: ys => if key x <=? key y then x :: l else y :: insert_by key x ys
  end.

Definition sorted {A} (key : A → nat) (l : list A) : list A :=
  foldr (insert_by key) [] l.

Definition dedup_key (d : detection) : nat * str := (d_start d, d_text d).

(** The loop over the sorted list with the set [seen]. *)
Fixpoint unique_from (seen : gset (nat * str)) (l : list detection)
    : list detection :=
  match l with
  | [] => []
  | d :: ds =>
      if decide (dedup_key d ∈ seen) then unique_from seen ds
      else d :: unique_from ({[dedup_key d]} ∪ seen) ds
  end.

Definition find_pii (self : WorkerThread) (text : str) : list detection :=
  unique_from ∅ (sorted d_start (candidates self text)).

(** ** The collaborators of [run] *)

(** A region of a page as the document engine reports it; the program only
    passes regions on. *)
Record Rect : Type := mkRect { x0 : Z; y0 : Z; x1 : Z; y1 : Z }.

(** A page of an opened document: [page.get_text()] and
    [page.search_for(needle)]. *)
Record Page : Type := mkPage {
  get_text : str;
  search_for : str → list Rect;
}.

(** What lies outside the program.  A call that can raise returns the text
    of the exception ([str(e)]) on the left. *)
Record World : Type := mkWorld {
  fitz_open : str → str + list Page;
  doc_save : str → option str;
  open_report : str → option str;
  now : str → str;
  basename : str → str;
  stem : str → str;
  path_join : str → str → str;
}.

(** The calls [run] makes on its collaborators, in the order made. *)
Inductive event : Type :=
  | EvProgress (msg : str)
  | EvRedactLabel (file : str) (page_num : nat) (inst : Rect) (label : str)
  | EvRedactBlack (file : str) (page_num : nat) (inst : Rect)
  | EvApply (file : str) (page_num : nat)
  | EvSaved (file out_path : str)
  | EvOpened (report_path : str)
  | EvWrite (report_path chunk : str)
  | EvClosed (file : str).

(** The dict [results] of [run]. *)
Record results : Type := mkResults {
  detected : str;
  output : str;
  stats : gmap string nat;
  res_preview_data : gmap str (list detection);
}.

Record state : Type := mkState {
  res : results;
  trace : list event;
}.

Definition init_state : state := mkState (mkResults [] [] ∅ ∅) [].

(** ** The statements of [run] *)

(** What [run] does, step by step: it appends to the two logs, counts a
    type in [results["stats"]], stores a list in [results["preview_data"]],
    calls a collaborator, and raises or catches an exception. *)
Inductive prog : Type → Type :=
  | ret {A} (x : A) : prog A
  | bind {A B} (p : prog A) (k : A → prog B) : prog B
  | lift {A} (r : str + A) : prog A
  | try_except {A} (body : prog A) (handler : str → prog A) : prog A
  | say_detected (s : str) : prog unit
  | say_output (s : str) : prog unit
  | bump (ty : string) : prog unit
  | set_preview_data (file : str) (l : list detection) : prog unit
  | emit (ev : event) : prog unit.

Definition raise {A} (e : str) : prog A := lift (inl e).

Global Instance prog_ret : MRet prog := @ret.
Global Instance prog_bind : MBind prog := λ A B k p, bind p k.

Fixpoint for_ {A} (l : list A) (body : A → prog unit) : prog unit :=
  match l with
  | [] => ret tt
  | x :: xs => body x ;; for_ xs body
  end.

(** A loop that appends one value per round to a list. *)
Fixpoint collect {A B} (l : list A) (body : A → prog B) : prog (list B) :=
  match l with
  | [] => ret []
  | x :: xs => y ← body x; ys ← collect xs body; ret (y :: ys)
  end.

(** ** State with exceptions *)

(** A statement takes the state to a new state and returns a value or the
    text of the exception it raised; what was written before a raise stays
    written. *)
Definition M (A : Type) : Type := state → state * (str + A).

Definition update (f : results → results) : M unit :=
  λ st, (mkState (f (res st)) (trace st), inr tt).

(** [results["stats"][ty] = results["stats"].get(ty, 0) + 1] *)
Definition bump_stat (s : gmap string nat) (ty : string) : gmap string nat :=
  <[ty := default 0 (s !! ty) + 1]> s.

Fixpoint exec {A} (p : prog A) : M A :=
  match p in prog A return M A with
  | ret x => λ st, (st, inr x)
  | bind p k =>
      λ st, match exec p st with
            | (st', inr x) => exec (k x) st'
            | (st', inl e) => (st', inl e)
            end
  | lift r => λ st, (st, r)
  | try_except body handler =>
      λ st, match exec body st with
            | (st', inl e) => exec (handler e) st'
            | done => done
            end
  | say_detected s =>
      update (λ r, mkResults (detected r ++ s) (output r) (stats r)
                     (res_preview_data r))
  | say_output s =>
      update (λ r, mkResults (detected r) (output r ++ s) (stats r)
                     (res_preview_data r))
  | bump ty =>
      update (λ r, mkResults (detected r) (output r) (bump_stat (stats r) ty)
                     (res_preview_data r))
  | set_preview_data file l =>
      update (λ r, mkResults (detected r) (output r) (stats r)
                     (<[file := l]> (res_preview_data r)))
  | emit ev => λ st, (mkState (res st) (trace st ++ [ev]), inr tt)
  end.

(** ** Text building *)

Definition nl : str := [10%N].
Definition dq : str := [34%N].
Definition rule (n : nat) : str := replicate n 61%N.

(** The check mark, the ballot cross and the arrow of the output log. *)
Definition check_mark : str := [10003%N].
Definition cross_mark : str := [10007%N].
Definition arrow : str := [8594%N].

(** [d['page']]: a [KeyError] when the key was never set. *)
Definition page_of (d : detection) : str + nat :=
  match d_page d with
  | Some n => inr n
  | None => inl (u "'page'")
  end.

(** [f"Page {d['page']}: [{d['type']}] \"{d['text']}\"\n"] *)
Definition item_line (d : detection) : str + str :=
  match page_of d with
  | inr n =>
      inr (u "Page " ++ u (pretty n) ++ u ": [" ++ u (d_type d) ++ u "] " ++ dq
           ++ d_text d ++ dq ++ nl)
  | inl e => inl e
  end.

(** [d["page"] = n] *)
Definition with_page (n : nat) (d : detection) : detection :=
  Detection (d_text d) (d_type d) (d_start d) (Some n).

(** ** [run] *)

(** [enumerate(doc)] *)
Definition enumerate {A} (l : list A) : list (nat * A) := imap pair l.

(** The inner loop of the detection pass on one page: every dict returned
    by [find_pii] gets its page, joins [file_detections] and is counted. *)
Definition scan_page (self : WorkerThread) (pp : nat * Page) : prog (list detection) :=
  collect (find_pii self (get_text pp.2)) (λ d,
    let d' := with_page (pp.1 + 1) d in
    bump (d_type d') ;;
    ret d').

Definition scan_doc (self : WorkerThread) (doc : list Page) : prog (list detection) :=
  per_page ← collect (enumerate doc) (scan_page self);
  ret (concat per_page).

(** [[d for d in dets if d.get("page") == page_num + 1]] *)
Definition page_dets (dets : list detection) (page_num : nat) : list detection :=
  filter (λ d, d_page d = Some (page_num + 1)) dets.

Definition redact_annot (self : WorkerThread) (file : str) (page_num : nat)
    (d : detection) (inst : Rect) : event :=
  if String.eqb (output_mode self) "labels"
  then EvRedactLabel file page_num inst (u "[" ++ u (d_type d) ++ u "]")
  else EvRedactBlack file page_num inst.

Definition redact_page (self : WorkerThread) (file : str)
    (dets : list detection) (pp : nat * Page) : prog unit :=
  for_ (page_dets dets pp.1) (λ d,
    for_ (search_for pp.2 (d_text d)) (λ inst,
      emit (redact_annot self file pp.1 d inst))) ;;
  emit (EvApply file pp.1).

Definition write_report (W : World) (report_path filename : str)
    (dets : list detection) : prog unit :=
  match open_report W report_path with
  | Some e => raise e
  | None =>
      emit (EvOpened report_path) ;;
      emit (EvWrite report_path
              (u "IC Redact Report" ++ nl ++ u "Source: " ++ filename ++ nl)) ;;
      emit (EvWrite report_path (u "Date: " ++ now W report_path ++ nl)) ;;
      emit (EvWrite report_path
              (rule 50 ++ nl ++ nl ++ u "Items redacted: "
               ++ u (pretty (length dets)) ++ nl ++ nl)) ;;
      for_ dets (λ d,
        line ← lift (item_line d); emit (EvWrite report_path line))
  end.

(** The redact branch, entered when [output_dir] was given. *)
Definition redact_doc (W : World) (self : WorkerThread) (dir : str)
    (filepath filename : str) (doc : list Page)
    (file_detections : list detection) : prog unit :=
  let dets := default file_detections (preview_data self !! filepath) in
  for_ (enumerate doc) (redact_page self filepath dets) ;;
  let out_path := path_join W dir (stem W filepath ++ u "_REDACTED.pdf") in
  match doc_save W out_path with
  | Some e => raise e
  | None =>
      emit (EvSaved filepath out_path) ;;
      let report_path := path_join W dir (stem W filepath ++ u "_report.txt") in
      write_report W report_path filename dets ;;
      say_output (check_mark ++ u " " ++ filename ++ nl ++ u "  " ++ arrow ++ u " " ++ out_path ++ nl
                  ++ u "  " ++ arrow ++ u " " ++ report_path ++ nl ++ nl)
  end.

(** The body of the [try] statement. *)
Definition attempt (W : World) (self : WorkerThread) (filepath filename : str)
    : prog unit :=
  doc ← lift (fitz_open W filepath);
  file_detections ← scan_doc self doc;
  set_preview_data filepath file_detections ;;
  (match file_detections with
   | [] => say_detected (u "  No PII detected." ++ nl)
   | _ => for_ file_detections (λ d,
            line ← lift (item_line d); say_detected (u "  " ++ line))
   end) ;;
  (match output_dir self with
   | None => ret tt
   | Some dir => redact_doc W self dir filepath filename doc file_detections
   end) ;;
  emit (EvClosed filepath).

(** One round of the loop over [self.files]. *)
Definition process_file (W : World) (self : WorkerThread) (filepath : str)
    : prog unit :=
  let filename := basename W filepath in
  emit (EvProgress (u "Processing: " ++ filename)) ;;
  say_detected (rule 45 ++ nl ++ filename ++ nl ++ rule 45 ++ nl ++ nl) ;;
  try_except (attempt W self filepath filename)
    (λ e,
       say_detected (u "  ERROR: " ++ e ++ nl) ;;
       if is_preview self then ret tt
       else say_output (cross_mark ++ u " " ++ filename ++ u ": " ++ e ++ nl ++ nl)) ;;
  say_detected nl.

(** [run]: the state at [self.finished.emit(results)], or the exception
    that left the method. *)
Definition run (W : World) (self : WorkerThread) : state * (str + unit) :=
  exec (for_ (files self) (process_file W self)) init_state.

Definition all_on : gmap string bool :=
  list_to_map ((λ k, (k, true)) <$>
    ["ssn"; "names"; "phone"; "email"; "address"; "dob"; "bank"; "credit_card"]).

(** * Notions used in the statements and proofs *)

(** The order of the sort keys. *)
Definition key_le {A} (key : A → nat) (a b : A) : Prop := key a ≤ key b.

(** ** The specification's reading of [scan] *)

(** Step 3 of the specification: group the candidates by
    [(start_offset, matched_text)] and keep, of every group, the candidate
    that was produced first. *)
Fixpoint keep_first (earlier l : list detection) : list detection :=
  match l with
  | [] => []
  | d :: ds =>
      (if decide (dedup_key d ∈ dedup_key <$> earlier) then [] else [d])
      ++ keep_first (earlier ++ [d]) ds
  end.

Definition spec_dedup (l : list detection) : list detection := keep_first [] l.

(** Step 4 of the specification: ascending start offsets, the detections
    of one offset in the order they had. *)
Definition spec_sort (l : list detection) : list detection :=
  concat ((λ k, filter (λ d, d_start d = k) l)
            <$> seq 0 (S (max_list_with d_start l))).

Definition spec_scan (cands : list detection) : list detection :=
  spec_sort (spec_dedup cands).

(** The scan order of the specification, by the type the detections of a
    category carry; the custom phrases come last. *)
Definition SCAN_ORDER : list string :=
  [ "SSN"; "PHONE"; "EMAIL"; "CREDIT_CARD"; "BANK_ACCOUNT"; "DOB"; "ADDRESS";
    "NAME"; "CUSTOM" ].

Fixpoint index_of (ty : string) (l : list string) : nat :=
  match l with
  | [] => 0
  | x :: xs => if decide (x = ty) then 0 else S (index_of ty xs)
  end.

Definition scan_rank (d : detection) : nat := index_of (d_type d) SCAN_ORDER.

(** ** The loop with the set [seen] *)

Definition fresh_key (S : gset (nat * str)) (d : detection) : Prop :=
  dedup_key d ∉ S.

Global Instance fresh_key_dec S d : Decision (fresh_key S d).
Proof. unfold fresh_key. apply _. Defined.

(** ** Switching a category off *)

(** The first candidate of its key in a list. *)
Definition first_in (l : list detection) (d : detection) : Prop :=
  ∃ l1 l2, l = l1 ++ d :: l2 ∧ ∀ e, e ∈ l1 → dedup_key e ≠ dedup_key d.

(** The configuration keys of the built-in categories with the type tag
    their detections carry. *)
Definition CATEGORIES : list (string * string) :=
  [ ("ssn", "SSN"); ("phone", "PHONE"); ("email", "EMAIL");
    ("credit_card", "CREDIT_CARD"); ("bank", "BANK_ACCOUNT"); ("dob", "DOB");
    ("address", "ADDRESS"); ("names", "NAME") ].

(** The worker with one check box cleared. *)
Definition disable (key : string) (self : WorkerThread) : WorkerThread :=
  Worker (files self) (<[key := false]> (detection_cfg self))
    (custom_words self) (output_dir self) (preview_data self) (output_mode self).

Definition other_type (ty : string) (d : detection) : Prop := d_type d ≠ ty.

Global Instance other_type_dec ty d : Decision (other_type ty d).
Proof. unfold other_type. apply _. Defined.

(** ** What a pattern matches *)

(** The character before the position reached after reading [w]. *)
Definition last_char (p : option char) (w : str) : option char :=
  match last w with
  | Some c => Some c
  | None => p
  end.

(** [n] rounds of a repeated sub-pattern. *)
Fixpoint lang_n (L : option char → str → str → Prop) (n : nat)
    (p : option char) (w a : str) : Prop :=
  match n with
  | 0 => w = []
  | S n' =>
      ∃ w1 w2, w = w1 ++ w2 ∧ L p w1 (w2 ++ a)
               ∧ lang_n L n' (last_char p w1) w2 a
  end.

(** [lang ic r p w a]: the pattern [r] spells [w] between a position that
    follows the character [p] and the remaining text [a]. *)
Fixpoint lang (ic : bool) (r : regex) (p : option char) (w a : str)
    : Prop :=
  match r with
  | Eps => w = []
  | Lit c => ∃ x, w = [x] ∧ Char.eqb ic c x = true
  | Class items => ∃ x, w = [x] ∧ class_match ic items x = true
  | WordB => w = [] ∧ at_boundary (p, a) = true
  | Seq r1 r2 =>
      ∃ w1 w2, w = w1 ++ w2 ∧ lang ic r1 p w1 (w2 ++ a)
               ∧ lang ic r2 (last_char p w1) w2 a
  | Alt r1 r2 => lang ic r1 p w a ∨ lang ic r2 p w a
  | Rep lo hi r' =>
      ∃ n, lo ≤ n
           ∧ match hi with Some h => n ≤ lo + (h - lo) | None => True end
           ∧ lang_n (lang ic r') n p w a
  end.

(** A continuation-passing matcher is sound for a language when every
    success goes through a word of the language. *)
Definition sound_for (L : option char → str → str → Prop)
    (body : cont → cont) : Prop :=
  ∀ k c e, body k c = Some e →
    ∃ w a, c.2 = w ++ a ∧ L c.1 w a ∧ k (last_char c.1 w, a) = Some e.

(** ** Literal phrases *)

(** [s] stands at the head of [rest]. *)
Fixpoint starts_with (ic : bool) (s rest : str) : bool :=
  match s, rest with
  | [], _ => true
  | c :: s', x :: rest' => Char.eqb ic c x && starts_with ic s' rest'
  | _ :: _, [] => false
  end.

(** The page character [x] is the phrase character [c], letter case aside:
    it is [c] itself, or [c] is a cased character and [x] lowers to the
    lower case of [c] or to one of the extra cases that [re] lists for
    it. *)
Definition case_equal (c x : char) : Prop :=
  x = c
  ∨ (Char.is_cased c = true
     ∧ (Char.lower x = Char.lower c
        ∨ Char.lower x ∈ Char.fixes (Char.lower c))).

(** The phrase [w] occurs in [text] at offset [p], letter case aside. *)
Definition occurs_at (w text : str) (p : nat) : Prop :=
  p + length w ≤ length text
  ∧ Forall2 case_equal w (take (length w) (drop p text)).

(** ** Characters without case *)

(** An ASCII character that is not a letter. *)
Definition caseless (c : char) : bool :=
  Char.is_ascii c && negb (Char.is_cased c).

(** A member of a set that has no case. *)
Definition item_caseless (i : citem) : bool :=
  match i with
  | CChar c => caseless c
  | CRange lo hi => forallb caseless (range_chars lo hi)
  | _ => true
  end.

(** ** The date-of-birth rules *)

(** A month number as the rules read it: 1 to 9 with or without a zero
    before it, or 10, 11, 12. *)
Definition month_text (w : str) : Prop :=
  (∃ c, Char.in_range "1" "9" c = true ∧ (w = [c] ∨ w = u "0" ++ [c]))
  ∨ (∃ c, Char.in_range "0" "2" c = true ∧ w = u "1" ++ [c]).

(** A day number: 1 to 9 with or without a zero before it, 1 or 2 and a
    decimal digit, or 30, 31. *)
Definition day_text (w : str) : Prop :=
  (∃ c, Char.in_range "1" "9" c = true ∧ (w = [c] ∨ w = u "0" ++ [c]))
  ∨ (∃ c, Char.is_digit c = true ∧ (w = u "1" ++ [c] ∨ w = u "2" ++ [c]))
  ∨ w = u "30" ∨ w = u "31".

(** A year of four digits that opens with 19 or 20. *)
Definition year_text (y : str) : Prop :=
  ∃ d1 d2, Char.is_digit d1 = true ∧ Char.is_digit d2 = true
           ∧ (y = u "19" ++ [d1; d2] ∨ y = u "20" ++ [d1; d2]).

Definition sep_text (s : str) : Prop := s = u "-" ∨ s = u "/".

Definition MONTHS : list string :=
  ["Jan"; "Feb"; "Mar"; "Apr"; "May"; "Jun";
   "Jul"; "Aug"; "Sep"; "Oct"; "Nov"; "Dec"].

(** The first three letters of an English month name, in any letter
    case. *)
Definition month_name_text (w : str) : Prop :=
  ∃ name, name ∈ MONTHS ∧ Forall2 case_equal (u name) w.

(** What [[a-z]] accepts under [re.IGNORECASE]: a character that lowers to
    one of a to z, to the dotless i or to the long s. *)
Definition is_letter (x : char) : Prop :=
  Char.in_range "a" "z" (Char.lower x) = true
  ∨ Char.lower x = Char.dotless_i ∨ Char.lower x = Char.long_s.

(** One blank character or more. *)
Definition blanks (w : str) : Prop :=
  w ≠ [] ∧ Forall (λ c, Char.is_space c = true) w.

(** Nothing, or [s]. *)
Definition at_most (s w : str) : Prop := w = [] ∨ w = s.

(** One or two decimal digits. *)
Definition day_digits (w : str) : Prop :=
  Forall (λ c, Char.is_digit c = true) w ∧ 1 ≤ length w ≤ 2.

(** Month, day, year and year, month, day in digits; either separator is
    a hyphen or a slash. *)
Definition mdy_format (t : str) : Prop :=
  ∃ m s1 d s2 y, t = m ++ s1 ++ d ++ s2 ++ y
    ∧ month_text m ∧ sep_text s1 ∧ day_text d ∧ sep_text s2 ∧ year_text y.

Definition ymd_format (t : str) : Prop :=
  ∃ y s1 m s2 d, t = y ++ s1 ++ m ++ s2 ++ d
    ∧ year_text y ∧ sep_text s1 ∧ month_text m ∧ sep_text s2 ∧ day_text d.

(** An English month name cut after three letters or followed by any
    further letters, an optional full stop, blanks, a day of one or two
    digits, an optional comma, blanks, the year. *)
Definition month_format (t : str) : Prop :=
  ∃ mon letters dot sp1 day comma sp2 y,
    t = mon ++ letters ++ dot ++ sp1 ++ day ++ comma ++ sp2 ++ y
    ∧ month_name_text mon ∧ Forall is_letter letters
    ∧ at_most (u ".") dot ∧ blanks sp1 ∧ day_digits day
    ∧ at_most (u ",") comma ∧ blanks sp2 ∧ year_text y.

Definition dob_format (t : str) : Prop :=
  mdy_format t ∨ ymd_format t ∨ month_format t.

(** [t] stands in its page between two word boundaries: at either end
    exactly one of the two neighbours is a word character. *)
Definition bounded (before t after : str) : Prop :=
  at_boundary (last before, t ++ after) = true
  ∧ at_boundary (last_char (last before) t, after) = true.

Definition contains_year (t : str) : Prop :=
  ∃ pre y post, t = pre ++ y ++ post ∧ year_text y.

(** The three formats as the specification words them: [MM/DD/YYYY],
    [YYYY/MM/DD] and [Mon DD, YYYY], every letter of the template standing
    for one character. *)
Definition n_digits (n : nat) (w : str) : Prop :=
  length w = n ∧ Forall (λ c, Char.is_digit c = true) w.

Definition literal_format (t : str) : Prop :=
  (∃ mm dd yyyy, t = mm ++ u "/" ++ dd ++ u "/" ++ yyyy
     ∧ n_digits 2 mm ∧ n_digits 2 dd ∧ n_digits 4 yyyy)
  ∨ (∃ yyyy mm dd, t = yyyy ++ u "/" ++ mm ++ u "/" ++ dd
       ∧ n_digits 4 yyyy ∧ n_digits 2 mm ∧ n_digits 2 dd)
  ∨ (∃ mon dd yyyy, t = u mon ++ u " " ++ dd ++ u ", " ++ yyyy
       ∧ mon ∈ MONTHS ∧ n_digits 2 dd ∧ n_digits 4 yyyy).

(** A matcher finds a match wherever its language has a word that the rest
    of the pattern accepts. *)
Definition complete_for (L : option char → str → str → Prop)
    (body : cont → cont) : Prop :=
  ∀ k p w a, L p w a → is_Some (k (last_char p w, a)) →
    is_Some (body k (p, w ++ a)).

(** ** What a statement adds to the state *)

(** The text appended to the two logs, the types counted, the lists stored
    in [preview_data] and the calls made, each in order. *)
Record effect : Type := mkEffect {
  e_detected : str;
  e_output : str;
  e_bumps : list string;
  e_previews : list (str * list detection);
  e_trace : list event;
}.

Definition eff_nil : effect := mkEffect [] [] [] [] [].

Definition eff_app (a b : effect) : effect :=
  mkEffect (e_detected a ++ e_detected b) (e_output a ++ e_output b)
    (e_bumps a ++ e_bumps b) (e_previews a ++ e_previews b)
    (e_trace a ++ e_trace b).

Definition store (m : gmap str (list detection))
    (fl : str * list detection) : gmap str (list detection) :=
  <[fl.1 := fl.2]> m.

Definition apply_effect (δ : effect) (st : state) : state :=
  mkState
    (mkResults (detected (res st) ++ e_detected δ)
       (output (res st) ++ e_output δ)
       (foldl bump_stat (stats (res st)) (e_bumps δ))
       (foldl store (res_preview_data (res st)) (e_previews δ)))
    (trace st ++ e_trace δ).

(** The effect and the result of a statement, read off its text. *)
Fixpoint summary {A} (p : prog A) : effect * (str + A) :=
  match p in prog A return effect * (str + A) with
  | ret x => (eff_nil, inr x)
  | bind p k =>
      match summary p with
      | (δ, inr x) => (eff_app δ (summary (k x)).1, (summary (k x)).2)
      | (δ, inl e) => (δ, inl e)
      end
  | lift r => (eff_nil, r)
  | try_except body handler =>
      match summary body with
      | (δ, inl e) => (eff_app δ (summary (handler e)).1, (summary (handler e)).2)
      | done => done
      end
  | say_detected s => (mkEffect s [] [] [] [], inr tt)
  | say_output s => (mkEffect [] s [] [] [], inr tt)
  | bump ty => (mkEffect [] [] [ty] [] [], inr tt)
  | set_preview_data file l => (mkEffect [] [] [] [(file, l)] [], inr tt)
  | emit ev => (mkEffect [] [] [] [] [ev], inr tt)
  end.

Definition said (s : str) : effect := mkEffect s [] [] [] [].
Definition wrote (s : str) : effect := mkEffect [] s [] [] [].
Definition counted (tys : list string) : effect := mkEffect [] [] tys [] [].
Definition cached (file : str) (l : list detection) : effect :=
  mkEffect [] [] [] [(file, l)] [].
Definition did (evs : list event) : effect := mkEffect [] [] [] [] evs.

Definition eff_concat (l : list effect) : effect := foldr eff_app eff_nil l.

(** ** The detection pass over a document *)

(** The list [file_detections] of an opened document. *)
Definition fresh_detections (self : WorkerThread) (doc : list Page)
    : list detection :=
  enumerate doc ≫= (λ pp, with_page (pp.1 + 1) <$> find_pii self (get_text pp.2)).

(** ** The outcome of one document *)

(** The lines rendered for a list of detections, up to the first one that
    has no page, and the [KeyError] raised there. *)
Fixpoint written_lines (dets : list detection) : list str * option str :=
  match dets with
  | [] => ([], None)
  | d :: ds =>
      match item_line d with
      | inr line => (line :: (written_lines ds).1, (written_lines ds).2)
      | inl e => ([], Some e)
      end
  end.

Definition raised (o : option str) : str + unit :=
  match o with Some e => inl e | None => inr tt end.

Definition glue (l : list str) : str := concat l.

(** One statement after another. *)
Definition then_ (a b : effect * (str + unit)) : effect * (str + unit) :=
  match a.2 with
  | inl e => a
  | inr _ => (eff_app a.1 b.1, b.2)
  end.

(** The text listed under a document in the detected log. *)
Definition listing (l : list detection) : str :=
  match l with
  | [] => u "  No PII detected." ++ nl
  | _ => glue ((λ line, u "  " ++ line) <$> (written_lines l).1)
  end.

(** The calls made on one page in the redact branch. *)
Definition page_events (self : WorkerThread) (file : str)
    (dets : list detection) (pp : nat * Page) : list event :=
  (page_dets dets pp.1 ≫= (λ d,
     redact_annot self file pp.1 d <$> search_for pp.2 (d_text d)))
  ++ [EvApply file pp.1].

Definition report_outcome (W : World) (report_path filename : str)
    (dets : list detection) : effect * (str + unit) :=
  match open_report W report_path with
  | Some e => (eff_nil, inl e)
  | None =>
      (did ([ EvOpened report_path;
              EvWrite report_path
                (u "IC Redact Report" ++ nl ++ u "Source: " ++ filename ++ nl);
              EvWrite report_path (u "Date: " ++ now W report_path ++ nl);
              EvWrite report_path
                (rule 50 ++ nl ++ nl ++ u "Items redacted: "
                 ++ u (pretty (length dets)) ++ nl ++ nl) ]
            ++ (EvWrite report_path <$> (written_lines dets).1)),
       raised (written_lines dets).2)
  end.

(** The detections the redact branch works from. *)
Definition planned (self : WorkerThread) (filepath : str)
    (file_detections : list detection) : list detection :=
  default file_detections (preview_data self !! filepath).

Definition redact_outcome (W : World) (self : WorkerThread) (dir : str)
    (filepath filename : str) (doc : list Page)
    (file_detections : list detection) : effect * (str + unit) :=
  let dets := planned self filepath file_detections in
  let out_path := path_join W dir (stem W filepath ++ u "_REDACTED.pdf") in
  let report_path := path_join W dir (stem W filepath ++ u "_report.txt") in
  then_ (did (enumerate doc ≫= page_events self filepath dets), inr tt)
    (match doc_save W out_path with
     | Some e => (eff_nil, inl e)
     | None =>
         then_ (did [EvSaved filepath out_path], inr tt)
           (then_ (report_outcome W report_path filename dets)
              (wrote (check_mark ++ u " " ++ filename ++ nl ++ u "  " ++ arrow ++ u " " ++ out_path ++ nl
                      ++ u "  " ++ arrow ++ u " " ++ report_path ++ nl ++ nl), inr tt))
     end).

Definition attempt_outcome (W : World) (self : WorkerThread)
    (filepath filename : str) : effect * (str + unit) :=
  match fitz_open W filepath with
  | inl e => (eff_nil, inl e)
  | inr doc =>
      let fresh := fresh_detections self doc in
      then_ (counted (d_type <$> fresh), inr tt)
        (then_ (cached filepath fresh, inr tt)
           (then_ (said (listing fresh), raised (written_lines fresh).2)
              (then_ (match output_dir self with
                      | None => (eff_nil, inr tt)
                      | Some dir =>
                          redact_outcome W self dir filepath filename doc fresh
                      end)
                 (did [EvClosed filepath], inr tt))))
  end.

Definition header (filename : str) : str :=
  rule 45 ++ nl ++ filename ++ nl ++ rule 45 ++ nl ++ nl.

(** What the [except] clause appends. *)
Definition handler_effect (W : World) (self : WorkerThread) (filepath e : str)
    : effect :=
  eff_app (said (u "  ERROR: " ++ e ++ nl))
    (if is_preview self then eff_nil
     else wrote (cross_mark ++ u " " ++ basename W filepath ++ u ": " ++ e ++ nl ++ nl)).

(** What one round of the loop over the files adds to the state. *)
Definition file_effect (W : World) (self : WorkerThread) (filepath : str)
    : effect :=
  let tried := attempt_outcome W self filepath (basename W filepath) in
  eff_app (did [EvProgress (u "Processing: " ++ basename W filepath)])
    (eff_app (said (header (basename W filepath)))
       (eff_app tried.1
          (eff_app (match tried.2 with
                    | inl e => handler_effect W self filepath e
                    | inr _ => eff_nil
                    end)
             (said nl)))).

(** The batch that holds one document only. *)
Definition alone (filepath : str) (self : WorkerThread) : WorkerThread :=
  Worker [filepath] (detection_cfg self) (custom_words self) (output_dir self)
    (preview_data self) (output_mode self).

(** ** Errors stay with their document *)

(** The line of the output log for a redacted document. *)
Definition success_line (W : World) (dir filepath : str) : str :=
  check_mark ++ u " " ++ basename W filepath ++ nl
  ++ u "  " ++ arrow ++ u " " ++ path_join W dir (stem W filepath ++ u "_REDACTED.pdf") ++ nl
  ++ u "  " ++ arrow ++ u " " ++ path_join W dir (stem W filepath ++ u "_report.txt") ++ nl
  ++ nl.

Definition failure_line (W : World) (filepath e : str) : str :=
  cross_mark ++ u " " ++ basename W filepath ++ u ": " ++ e ++ nl ++ nl.

(** ** Counts, cache and report *)


(** The calls of the redact branch on an opened document: the marks page by
    page, then the save, then the report, written up to the first
    detection that has no page. *)
Definition redact_trace (W : World) (self : WorkerThread) (dir filepath : str)
    (doc : list Page) : list event :=
  let dets := planned self filepath (fresh_detections self doc) in
  let out_path := path_join W dir (stem W filepath ++ u "_REDACTED.pdf") in
  let report_path := path_join W dir (stem W filepath ++ u "_report.txt") in
  (enumerate doc ≫= page_events self filepath dets)
  ++ match doc_save W out_path with
     | Some _ => []
     | None =>
         EvSaved filepath out_path ::
         match open_report W report_path with
         | Some _ => []
         | None =>
             [ EvOpened report_path;
               EvWrite report_path
                 (u "IC Redact Report" ++ nl ++ u "Source: "
                  ++ basename W filepath ++ nl);
               EvWrite report_path (u "Date: " ++ now W report_path ++ nl);
               EvWrite report_path
                 (rule 50 ++ nl ++ nl ++ u "Items redacted: "
                  ++ u (pretty (length dets)) ++ nl ++ nl) ]
             ++ (EvWrite report_path <$> (written_lines dets).1)
             ++ match (written_lines dets).2 with
                | None => [EvClosed filepath]
                | Some _ => []
                end
         end
     end.


(** A world with one document of one page that holds a social security
    number, and a redact run on it whose cache holds an empty list for the
    document. *)
Definition one_ssn_world : World :=
  mkWorld (λ _, inr [mkPage (u "SSN 123-45-6789") (λ _, [mkRect 0 0 10 10])])
    (λ _, None) (λ _, None) (λ _, u "2024-01-01 00:00:00")
    id id (λ dir name, dir ++ u "/" ++ name).

Definition stale_cache_worker : WorkerThread :=
  Worker [u "a.pdf"] all_on [] (Some (u "out")) {[u "a.pdf" := []]} "black".

(** ** Preview and redact *)

(** A mark put on page [page_num] of [file]. *)
Definition is_annot_on (file : str) (page_num : nat) (ev : event) : bool :=
  match ev with
  | EvRedactLabel f p _ _ | EvRedactBlack f p _ =>
      bool_decide (f = file ∧ p = page_num)
  | _ => false
  end.

Definition annots_on (file : str) (page_num : nat) (t : list event)
    : list event :=
  filter (λ ev, is_annot_on file page_num ev) t.

(** The marks for a list of detections on a page: every region the page
    reports for the text of each detection, in order. *)
Definition marks (self : WorkerThread) (file : str) (page_num : nat)
    (page : Page) (dets : list detection) : list event :=
  dets ≫= (λ d, redact_annot self file page_num d <$> search_for page (d_text d)).

(** ** Worked inputs *)

(** The tables of an interpreter that knows no character beyond ASCII.
    The worked inputs are ASCII throughout, and on ASCII no table is looked
    up. *)
Definition ascii_only : Unicode :=
  {| uni_lower := id; uni_cased := λ _, false; uni_decimal := λ _, false;
     uni_space := λ _, false; uni_alnum := λ _, false; uni_fixes := λ _, [] |}.

(** A worker with every built-in category switched on. *)
Definition demo_worker : WorkerThread := Worker [] all_on [] None ∅ "black".

Definition contact_line : str :=
  u "Contact John Smith at 555-123-4567 or jsmith@example.com, SSN 123-45-6789.".

(** A preview run over the document of [one_ssn_world], and a redact run in
    label mode that has every category off and holds the preview's cache. *)
Definition preview_worker : WorkerThread :=
  Worker [u "a.pdf"] all_on [] None ∅ "black".

Definition redact_worker : WorkerThread :=
  Worker [u "a.pdf"] ∅ [] (Some (u "out"))
    (res_preview_data (res (run one_ssn_world preview_worker).1)) "labels".

Definition ssn_page : Page := mkPage (u "SSN 123-45-6789") (λ _, [mkRect 0 0 10 10]).

(** Workers with one custom phrase each. *)
Definition aa_worker : WorkerThread := Worker [] ∅ [u "aa"] None ∅ "black".

Definition project_worker : WorkerThread :=
  Worker [] ∅ [u "Project-123"] None ∅ "black".

Definition birth_line : str := u "born 01/02/1999".

(** A worker that looks for dates of birth only. *)
Definition dob_worker : WorkerThread :=
  Worker [] {["dob" := true]} [] None ∅ "black".

(** The batch of the specification: the first document cannot be opened,
    the second is redacted, and the run reports both. *)
Definition second_opens_world : World :=
  mkWorld (λ f, if bool_decide (f = u "bad.pdf") then inl (u "cannot open file")
                else inr [ssn_page])
    (λ _, None) (λ _, None) (λ _, u "2024-01-01 00:00:00")
    id id (λ dir name, dir ++ u "/" ++ name).

Definition two_file_worker : WorkerThread :=
  Worker [u "bad.pdf"; u "a.pdf"] all_on [] (Some (u "out")) ∅ "black".

(** * Properties *)

(** ** The stable sort *)

Section sorted_facts.
Context {A : Type} (key : A → nat).

Implicit Types (x : A) (l : list A).

Lemma insert_by_perm x l : insert_by key x l ≡ₚ x :: l.
Proof.
  induction l as [|y ys IH]; simpl; [done|].
  case_match; [done|]. by rewrite IH, Permutation_swap.
Qed.

Lemma sorted_perm l : sorted key l ≡ₚ l.
Proof.
  induction l as [|x l IH]; simpl; [done|].
  by rewrite insert_by_perm, IH.
Qed.

Lemma insert_by_sorted x l :
  StronglySorted (key_le key) l → StronglySorted (key_le key) (insert_by key x l).
Proof.
  induction 1 as [|y ys Hs IH Hall]; simpl.
  - repeat constructor.
  - destruct (Nat.leb_spec (key x) (key y)).
    + constructor; [by constructor|].
      constructor; [done|].
      eapply Forall_impl; [exact Hall|]. unfold key_le. intros; simpl in *; lia.
    + constructor; [done|].
      rewrite insert_by_perm. constructor; [unfold key_le; lia|done].
Qed.

Lemma sorted_sorted l : StronglySorted (key_le key) (sorted key l).
Proof.
  induction l; simpl; [constructor|by apply insert_by_sorted].
Qed.

(** An element below everything in the list goes to the front. *)
Lemma insert_by_head x l :
  Forall (λ y, key x ≤ key y) l → insert_by key x l = x :: l.
Proof.
  destruct 1 as [|y ys Hy _]; simpl; [done|].
  by destruct (Nat.leb_spec (key x) (key y)); [|lia].
Qed.

Lemma sorted_id l : StronglySorted (key_le key) l → sorted key l = l.
Proof.
  induction 1 as [|y ys Hs IH Hall]; simpl; [done|].
  rewrite IH. by apply insert_by_head.
Qed.

Section with_filter.
Context (P : A → Prop) `{!∀ x, Decision (P x)}.

Lemma insert_by_filter x l :
  StronglySorted (key_le key) l →
  filter P (insert_by key x l)
  = if decide (P x) then insert_by key x (filter P l) else filter P l.
Proof.
  induction 1 as [|y ys Hs IH Hall]; simpl.
  - rewrite filter_cons, filter_nil. by case_decide.
  - destruct (Nat.leb_spec (key x) (key y)) as [Hle|Hlt].
    + rewrite (filter_cons _ x). case_decide; [|done].
      symmetry. apply insert_by_head.
      apply Forall_forall. intros z [_ Hz]%list_elem_of_filter.
      apply elem_of_cons in Hz as [->|Hz]; [done|].
      rewrite Forall_forall in Hall. specialize (Hall z Hz).
      unfold key_le in Hall. lia.
    + rewrite (filter_cons _ y), IH. case_decide; case_decide; try done.
      * rewrite filter_cons_True by done. simpl.
        by destruct (Nat.leb_spec (key x) (key y)); [lia|].
      * by rewrite filter_cons_False.
      * by rewrite filter_cons_True.
      * by rewrite filter_cons_False.
Qed.

Lemma sorted_filter l : filter P (sorted key l) = sorted key (filter P l).
Proof.
  induction l as [|x l IH]; simpl; [done|].
  rewrite insert_by_filter by apply sorted_sorted.
  rewrite filter_cons. case_decide; simpl; by rewrite IH.
Qed.

End with_filter.

(** Stability: the elements of one key keep their order. *)
Lemma sorted_stable k l :
  filter (λ x, key x = k) (sorted key l) = filter (λ x, key x = k) l.
Proof.
  rewrite sorted_filter. apply sorted_id.
  induction l as [|x l IH]; [constructor|].
  rewrite filter_cons. case_decide as Hx; [|done].
  constructor; [done|].
  apply Forall_forall. intros y [Hy _]%list_elem_of_filter.
  unfold key_le. lia.
Qed.

Lemma filter_all (P : A → Prop) `{!∀ x, Decision (P x)} l :
  Forall P l → filter P l = l.
Proof.
  induction 1; [done|]. rewrite filter_cons_True by done. by f_equal.
Qed.

Lemma filter_none (P : A → Prop) `{!∀ x, Decision (P x)} l :
  Forall (λ x, ¬ P x) l → filter P l = [].
Proof. induction 1; [done|]. by rewrite filter_cons_False. Qed.

(** A sorted list is the concatenation of its buckets. *)
Lemma sorted_buckets n b l :
  StronglySorted (key_le key) l →
  Forall (λ x, b ≤ key x < b + n) l →
  l = concat ((λ k, filter (λ x, key x = k) l) <$> seq b n).
Proof.
  revert b l. induction n as [|n IH]; intros b l Hs Hall.
  - destruct l as [|x l]; [done|].
    apply Forall_cons in Hall as [? _]. lia.
  - simpl.
    assert (l = filter (λ x, key x = b) l ++ filter (λ x, key x ≠ b) l) as Hsplit.
    { clear IH. induction Hs as [|y ys Hs IHs Hy]; [done|].
      apply Forall_cons in Hall as [Hyb Hall].
      rewrite !filter_cons. case_decide as Hk; case_decide; try lia.
      - simpl. f_equal. by apply IHs.
      - rewrite filter_none, filter_all; [done| |].
        + eapply Forall_impl; [exact Hy|]. unfold key_le. intros; simpl in *; lia.
        + eapply Forall_impl; [exact Hy|]. unfold key_le. intros; simpl in *; lia. }
    rewrite Hsplit at 1. f_equal.
    rewrite (IH (S b) (filter (λ x, key x ≠ b) l)) at 1.
    + f_equal. apply list_fmap_ext. intros i k Hk%list_elem_of_lookup_2.
      apply elem_of_seq in Hk.
      rewrite list_filter_filter. apply list_filter_iff. intros x. lia.
    + clear -Hs. induction Hs as [|y ys Hs IHs Hy]; [constructor|].
      rewrite filter_cons. case_decide; [|done].
      constructor; [done|].
      apply Forall_forall. intros z [_ Hz]%list_elem_of_filter.
      rewrite Forall_forall in Hy. by apply Hy.
    + apply Forall_forall. intros x [Hx Hin]%list_elem_of_filter.
      rewrite Forall_forall in Hall. specialize (Hall x Hin). simpl in *. lia.
Qed.

Lemma key_le_max_list l : Forall (λ x, 0 ≤ key x < 0 + S (max_list_with key l)) l.
Proof.
  induction l as [|x l IH]; [constructor|].
  simpl. constructor; [lia|].
  eapply Forall_impl; [exact IH|]. intros; simpl in *; lia.
Qed.

(** The stable sort written as buckets. *)
Lemma sorted_as_buckets l :
  sorted key l
  = concat ((λ k, filter (λ x, key x = k) l) <$> seq 0 (S (max_list_with key l))).
Proof.
  rewrite (sorted_buckets (S (max_list_with key l)) 0 (sorted key l)) at 1.
  - f_equal. apply list_fmap_ext. intros i k _. apply sorted_stable.
  - apply sorted_sorted.
  - rewrite sorted_perm. apply key_le_max_list.
Qed.

End sorted_facts.

(** ** The loop with the set [seen] *)

Lemma unique_from_union S1 S2 l :
  unique_from (S1 ∪ S2) l = unique_from S1 (filter (fresh_key S2) l).
Proof.
  revert S1. induction l as [|d ds IH]; intros S1; simpl; [done|].
  rewrite filter_cons.
  destruct (decide (fresh_key S2 d)) as [H2|H2]; unfold fresh_key in H2.
  - simpl.
    destruct (decide (dedup_key d ∈ S1)) as [H1|H1].
    + rewrite decide_True by set_solver. apply IH.
    + rewrite decide_False by set_solver. f_equal.
      rewrite (assoc_L (∪)). apply IH.
  - rewrite decide_True; [apply IH|].
    apply elem_of_union_r. by apply dec_stable.
Qed.

(** The loop, unrolled once. *)
Lemma unique_cons d ds :
  unique_from ∅ (d :: ds)
  = d :: unique_from ∅ (filter (λ e, dedup_key e ≠ dedup_key d) ds).
Proof.
  simpl. rewrite decide_False by set_solver. f_equal.
  rewrite (comm_L (∪)), unique_from_union.
  f_equal. apply list_filter_iff. intros e. unfold fresh_key. set_solver.
Qed.

Lemma unique_from_sublist S l : unique_from S l `sublist_of` l.
Proof.
  revert S. induction l as [|d ds IH]; intros S; simpl; [done|].
  case_decide; [apply sublist_cons|apply sublist_skip]; apply IH.
Qed.

Lemma unique_from_keys S l :
  NoDup (dedup_key <$> unique_from S l)
  ∧ ∀ d, d ∈ unique_from S l → dedup_key d ∉ S.
Proof.
  revert S. induction l as [|d ds IH]; intros S; simpl.
  - split; [constructor|]. by intros d ?%elem_of_nil.
  - case_decide as Hd; [apply IH|].
    destruct (IH ({[dedup_key d]} ∪ S)) as [Hnd Hout]. split.
    + rewrite fmap_cons. constructor; [|done].
      intros (e & Heq & He)%list_elem_of_fmap.
      apply Hout in He. apply He, elem_of_union_l, elem_of_singleton. done.
    + intros e [->|He]%elem_of_cons; [done|].
      apply Hout in He. intros HS. apply He, elem_of_union_r, HS.
Qed.

(** The set [seen] and the list of candidates met so far say the same. *)
Lemma unique_from_keep_first S earlier l :
  (∀ k, k ∈ S ↔ k ∈ dedup_key <$> earlier) →
  unique_from S l = keep_first earlier l.
Proof.
  revert S earlier. induction l as [|d ds IH]; intros S earlier HS; simpl; [done|].
  destruct (decide (dedup_key d ∈ S)) as [Hd|Hd].
  - rewrite decide_True by by apply HS. simpl.
    apply IH. intros k. rewrite fmap_app, elem_of_app, <-HS. set_solver.
  - rewrite decide_False by by rewrite <-HS. simpl. f_equal.
    apply IH. intros k. rewrite fmap_app, elem_of_app, <-HS. set_solver.
Qed.

Lemma unique_spec_dedup l : unique_from ∅ l = spec_dedup l.
Proof. apply unique_from_keep_first. set_solver. Qed.

(** Deduplication commutes with the stable sort by start offset. *)
Lemma unique_insert x s :
  StronglySorted (key_le d_start) s →
  unique_from ∅ (insert_by d_start x s)
  = insert_by d_start x
      (unique_from ∅ (filter (λ e, dedup_key e ≠ dedup_key x) s)).
Proof.
  remember (length s) as n eqn:Hn. revert s Hn.
  induction n as [n IH] using lt_wf_ind. intros s -> Hs.
  destruct Hs as [|y ys Hs Hy]; simpl.
  - rewrite decide_False by set_solver. done.
  - destruct (Nat.leb_spec (d_start x) (d_start y)) as [Hle|Hlt].
    + rewrite unique_cons. symmetry. apply insert_by_head.
      apply Forall_forall. intros z Hz.
      pose proof (elem_of_sublist _ _ _ Hz (unique_from_sublist _ _)) as Hz'.
      apply list_elem_of_filter in Hz' as [_ Hz'].
      apply elem_of_cons in Hz' as [->|Hz']; [done|].
      rewrite Forall_forall in Hy. specialize (Hy z Hz'). unfold key_le in Hy. lia.
    + assert (dedup_key y ≠ dedup_key x) as Hne.
      { unfold dedup_key. intros [= ? ?]. lia. }
      rewrite unique_cons.
      rewrite (insert_by_filter d_start _ x ys Hs).
      rewrite decide_True by done.
      rewrite (IH (length (filter (λ e, dedup_key e ≠ dedup_key y) ys)))
        with (s := filter (λ e, dedup_key e ≠ dedup_key y) ys); [| |done|].
      * rewrite (filter_cons_True _ y) by done.
        rewrite unique_cons. simpl.
        destruct (Nat.leb_spec (d_start x) (d_start y)); [lia|].
        do 3 f_equal. rewrite !list_filter_filter.
        apply list_filter_iff. intros e. tauto.
      * simpl. pose proof (length_filter (λ e, dedup_key e ≠ dedup_key y) ys). lia.
      * clear -Hs. induction Hs as [|z zs Hs IHs Hz]; [constructor|].
        rewrite filter_cons. case_decide; [|done].
        constructor; [done|].
        apply Forall_forall. intros w [_ Hw]%list_elem_of_filter.
        rewrite Forall_forall in Hz. by apply Hz.
Qed.

Lemma unique_sorted l :
  unique_from ∅ (sorted d_start l) = sorted d_start (unique_from ∅ l).
Proof.
  remember (length l) as n eqn:Hn. revert l Hn.
  induction n as [n IH] using lt_wf_ind. intros [|x l] ->; [done|].
  rewrite unique_cons. simpl.
  rewrite unique_insert by apply sorted_sorted.
  rewrite sorted_filter. f_equal.
  eapply IH; [|done]. simpl.
  pose proof (length_filter (λ e, dedup_key e ≠ dedup_key x) l). lia.
Qed.

(** ** [find_pii]: order and duplicates *)

Lemma hits_type ty ic text p d : d ∈ hits ty ic text p → d_type d = ty.
Proof. unfold hits. by intros (m & -> & _)%list_elem_of_fmap. Qed.

Lemma category_type self key table ty ic text d :
  d ∈ category self key table ty ic text → d_type d = ty.
Proof.
  unfold category. case_match; [|by intros ?%elem_of_nil].
  intros (p & Hd & _)%list_elem_of_bind. by eapply hits_type.
Qed.

Lemma names_type self text d :
  d ∈ (if enabled self "names"
       then COMMON_NAMES ≫= (λ name, hits "NAME" true text (name_pattern name))
       else []) →
  d_type d = "NAME".
Proof.
  case_match; [|by intros ?%elem_of_nil].
  intros (n & Hd & _)%list_elem_of_bind. by eapply hits_type.
Qed.

Lemma custom_type self text d : d ∈ custom_hits self text → d_type d = "CUSTOM".
Proof.
  unfold custom_hits. intros (w & Hd & _)%list_elem_of_bind. by eapply hits_type.
Qed.

Ltac block_type H :=
  first [ apply category_type in H | apply names_type in H
        | apply custom_type in H ].

Lemma one_type_in_order ty (l : list detection) :
  (∀ d, d ∈ l → d_type d = ty) → StronglySorted (key_le scan_rank) l.
Proof.
  induction l as [|x l IH]; intros Hty; constructor.
  - apply IH. intros d Hd. apply Hty. by right.
  - apply Forall_forall. intros d Hd. unfold key_le, scan_rank.
    rewrite (Hty x), (Hty d); [done|by right|by left].
Qed.

Lemma candidates_in_scan_order self text :
  StronglySorted (key_le scan_rank) (candidates self text).
Proof.
  unfold candidates.
  repeat (apply StronglySorted_app_2;
    [ intros x1 x2 H1 H2; block_type H1;
      repeat (apply elem_of_app in H2 as [H2|H2]; [block_type H2|]);
      try block_type H2;
      unfold key_le, scan_rank; rewrite H1, H2; vm_compute; lia
    | eapply one_type_in_order; intros d Hd; by block_type Hd
    | ]).
  eapply one_type_in_order. intros d Hd. by block_type Hd.
Qed.

Lemma find_pii_sorted self text :
  StronglySorted (key_le d_start) (find_pii self text).
Proof.
  unfold find_pii.
  assert (∀ l k : list detection, l `sublist_of` k →
            StronglySorted (key_le d_start) k →
            StronglySorted (key_le d_start) l) as Hsub.
  { intros l k Hlk. induction Hlk as [|x l k Hlk IH|x l k Hlk IH]; intros Hk.
    - constructor.
    - apply StronglySorted_inv in Hk as [Hk Hx]. constructor; [by apply IH|].
      apply Forall_forall. intros y Hy. rewrite Forall_forall in Hx.
      apply Hx. by eapply elem_of_sublist.
    - apply StronglySorted_inv in Hk as [Hk _]. by apply IH. }
  eapply Hsub; [apply unique_from_sublist|apply sorted_sorted].
Qed.

(** C3. No two detections returned by [find_pii] agree on both the start
    offset and the matched text, whatever rules produced the candidates. *)
Theorem find_pii_no_duplicate_key (self : WorkerThread) (text : str) :
  NoDup (dedup_key <$> find_pii self text).
Proof. apply unique_from_keys. Qed.

(** C4. The list returned by [find_pii] is ordered by start offset: of two
    consecutive detections the first does not start after the second. *)
Theorem find_pii_ordered (self : WorkerThread) (text : str) (i : nat)
    (a b : detection) :
  find_pii self text !! i = Some a →
  find_pii self text !! (i + 1) = Some b →
  d_start a ≤ d_start b.
Proof.
  intros Ha Hb. pose proof (find_pii_sorted self text) as Hs.
  rewrite <-(take_drop_middle _ _ _ Ha) in Hs.
  apply StronglySorted_app in Hs as (_ & _ & Hs).
  apply StronglySorted_inv in Hs as [_ Hs].
  rewrite Forall_forall in Hs. apply Hs.
  apply list_elem_of_lookup. exists 0.
  rewrite lookup_drop. rewrite <-Hb. f_equal. lia.
Qed.

(** C6. Sorting first and dropping repeated keys second, as [find_pii] does,
    gives the list of the specification: keep the first candidate of every
    [(start, text)] group in scan order, then sort by start offset with
    ties left in that order.  The scan order is the one the specification
    names: the candidates come category by category, SSN first and the
    custom phrases last. *)
Theorem find_pii_refines_spec (self : WorkerThread) (text : str) :
  find_pii self text = spec_scan (candidates self text)
  ∧ StronglySorted (key_le scan_rank) (candidates self text).
Proof.
  split; [|apply candidates_in_scan_order].
  unfold find_pii, spec_scan, spec_sort.
  rewrite unique_sorted, unique_spec_dedup.
  apply sorted_as_buckets.
Qed.

(** ** Switching a category off *)

Lemma unique_from_first S l d :
  d ∈ unique_from S l ↔ (dedup_key d ∉ S) ∧ first_in l d.
Proof.
  revert S. induction l as [|x xs IH]; intros S; simpl.
  - split; [by intros ?%elem_of_nil|].
    intros [_ (l1 & l2 & Hl & _)]. by destruct l1.
  - destruct (decide (dedup_key x ∈ S)) as [Hx|Hx].
    + rewrite IH. split; intros [Hd (l1 & l2 & Hl & Hf)]; (split; [done|]).
      * exists (x :: l1), l2. split; [by rewrite Hl|].
        intros e [->|He]%elem_of_cons; [congruence|by apply Hf].
      * destruct l1 as [|y l1]; simplify_eq/=; [done|].
        exists l1, l2. split; [done|]. intros e He. apply Hf. by right.
    + rewrite elem_of_cons, IH. split.
      * intros [->|[Hd (l1 & l2 & Hl & Hf)]].
        { split; [done|]. exists [], xs. split; [done|]. by intros e ?%elem_of_nil. }
        split; [intros ?; apply Hd; by apply elem_of_union_r|].
        exists (x :: l1), l2. split; [by rewrite Hl|].
        intros e [->|He]%elem_of_cons; [|by apply Hf].
        intros Heq. apply Hd, elem_of_union_l, elem_of_singleton. done.
      * intros [Hd (l1 & l2 & Hl & Hf)].
        destruct l1 as [|y l1]; simplify_eq/=; [by left|]. right. split.
        { intros [Hk%elem_of_singleton|?]%elem_of_union; [|done].
          apply (Hf y); [by left|done]. }
        exists l1, l2. split; [done|]. intros e He. apply Hf. by right.
Qed.

Lemma first_in_unique l a b :
  first_in l a → first_in l b → dedup_key a = dedup_key b → a = b.
Proof.
  intros (l1 & l2 & Hl & Hf) (m1 & m2 & Hm & Hg) Hk. subst l.
  revert m1 Hm Hg. induction l1 as [|x l1 IH]; intros [|y m1] Hm Hg;
    simpl in Hm; injection Hm as Hhd Htl.
  - done.
  - exfalso. apply (Hg y); [by left|by rewrite <-Hhd].
  - exfalso. apply (Hf x); [by left|by rewrite Hhd].
  - eapply IH; [|exact Htl|].
    + intros e He. apply Hf. by right.
    + intros e He. apply Hg. by right.
Qed.

Lemma first_in_exists l d :
  d ∈ l → ∃ d', first_in l d' ∧ dedup_key d' = dedup_key d.
Proof.
  induction l as [|x xs IH]; [by intros ?%elem_of_nil|].
  destruct (decide (dedup_key x = dedup_key d)) as [Hx|Hx].
  - intros _. exists x. split; [|done].
    exists [], xs. split; [done|]. by intros e ?%elem_of_nil.
  - intros [->|Hd]%elem_of_cons; [done|].
    destruct (IH Hd) as (d' & (l1 & l2 & Hl & Hf) & Hk).
    exists d'. split; [|done]. exists (x :: l1), l2. split; [by rewrite Hl|].
    intros e [->|He]%elem_of_cons; [congruence|by apply Hf].
Qed.

Section filtered_candidates.
Context (P : detection → Prop) `{!∀ d, Decision (P d)}.

Lemma first_in_filter l d : first_in l d → P d → first_in (filter P l) d.
Proof.
  intros (l1 & l2 & -> & Hf) HP. exists (filter P l1), (filter P l2).
  split; [by rewrite filter_app, filter_cons_True|].
  intros e [_ He]%list_elem_of_filter. by apply Hf.
Qed.

Lemma filter_unique_sublist S S' l :
  S' ⊆ S →
  filter P (unique_from S l) `sublist_of` unique_from S' (filter P l).
Proof.
  revert S S'. induction l as [|d ds IH]; intros S S' Hsub; simpl; [done|].
  rewrite (filter_cons _ d ds).
  destruct (decide (dedup_key d ∈ S)) as [Hd|Hd].
  - destruct (decide (P d)); simpl; [|by apply IH].
    case_decide; [by apply IH|].
    apply sublist_cons, IH. set_solver.
  - rewrite filter_cons.
    destruct (decide (P d)); simpl.
    + rewrite decide_False by set_solver.
      apply sublist_skip, IH. set_solver.
    + apply IH. set_solver.
Qed.

  (** What the filtered run returns beyond the filtered result of the full
      run had been shadowed by a candidate that the filter removes. *)
Lemma unique_filter_extra l d :
  d ∈ unique_from ∅ (filter P l) →
  d ∉ unique_from ∅ l →
  ∃ d', d' ∈ unique_from ∅ l ∧ ¬ P d' ∧ dedup_key d' = dedup_key d.
Proof.
  rewrite !unique_from_first. intros [_ Hd] Hnot.
  assert (d ∈ filter P l) as [HPd Hin]%list_elem_of_filter.
  { destruct Hd as (l1 & l2 & -> & _). set_solver. }
  destruct (first_in_exists l d Hin) as (d' & Hd' & Hk).
  exists d'. rewrite unique_from_first. repeat split; [set_solver|done| |done].
  intros HP. apply Hnot. split; [set_solver|].
  by rewrite <-(first_in_unique _ _ _ (first_in_filter _ _ Hd' HP) Hd Hk).
Qed.
End filtered_candidates.

Lemma filter_other_type ty ty' (l : list detection) :
  (∀ d, d ∈ l → d_type d = ty') →
  filter (other_type ty) l = if decide (ty' = ty) then [] else l.
Proof.
  intros Hl. case_decide as Hty.
  - apply filter_none, Forall_forall. intros d Hd. unfold other_type.
    rewrite (Hl d Hd). tauto.
  - apply filter_all, Forall_forall. intros d Hd. unfold other_type.
    by rewrite (Hl d Hd).
Qed.

Lemma enabled_disable key self k :
  enabled (disable key self) k = if decide (key = k) then false else enabled self k.
Proof. unfold enabled, disable. simpl. rewrite lookup_insert. by case_decide. Qed.

Lemma category_disable self key k table ty ic text :
  category (disable key self) k table ty ic text
  = if decide (key = k) then [] else category self k table ty ic text.
Proof. unfold category. rewrite enabled_disable. by case_decide. Qed.

Lemma candidates_disable self key ty text :
  (key, ty) ∈ CATEGORIES →
  candidates (disable key self) text
  = filter (other_type ty) (candidates self text).
Proof.
  intros Hin. unfold candidates. rewrite !filter_app.
  rewrite !(filter_other_type ty _ (category _ _ _ _ _ _))
    by (intros d; apply category_type).
  rewrite (filter_other_type ty "NAME").
  2:{ intros d. case_match; [|by intros ?%elem_of_nil].
      intros (n & Hd & _)%list_elem_of_bind. by eapply hits_type. }
  rewrite (filter_other_type ty "CUSTOM").
  2:{ unfold custom_hits. intros d (n & Hd & _)%list_elem_of_bind.
      by eapply hits_type. }
  rewrite !category_disable, enabled_disable.
  unfold custom_hits at 1. change (custom_words (disable key self))
    with (custom_words self). fold (custom_hits self text).
  generalize (COMMON_NAMES ≫= (λ name, hits "NAME" true text (name_pattern name))).
  intros names.
  unfold CATEGORIES in Hin.
  repeat (apply elem_of_cons in Hin as [[= -> ->]|Hin];
          [repeat first [ rewrite decide_True by done
                        | rewrite decide_False by done ];
           by repeat case_match|]).
  by apply elem_of_nil in Hin.
Qed.

(** C2, as the code has it.  Clearing the check box of a category removes
    every detection of that category; every detection that the full run
    attributes to another category is still returned, in the same order;
    and whatever else is returned stands at a [(start, text)] pair where the
    full run returned a detection of the cleared category. *)
Theorem disable_category (self : WorkerThread) (key ty : string) (text : str) :
  (key, ty) ∈ CATEGORIES →
  (∀ d, d ∈ find_pii (disable key self) text → d_type d ≠ ty)
  ∧ filter (other_type ty) (find_pii self text)
      `sublist_of` find_pii (disable key self) text
  ∧ (∀ d, d ∈ find_pii (disable key self) text →
          d ∉ find_pii self text →
          ∃ d', d' ∈ find_pii self text ∧ d_type d' = ty
                ∧ dedup_key d' = dedup_key d).
Proof.
  intros Hin. unfold find_pii.
  rewrite (candidates_disable self key ty text Hin), <-sorted_filter.
  split; [|split].
  - intros d Hd.
    pose proof (elem_of_sublist _ _ _ Hd (unique_from_sublist _ _)) as Hd'.
    by apply list_elem_of_filter in Hd' as [? _].
  - by apply filter_unique_sublist.
  - intros d Hd Hnot.
    destruct (unique_filter_extra _ _ _ Hd Hnot) as (d' & Hd' & HP & Hk).
    exists d'. repeat split; [done| |done].
    unfold other_type in HP. by apply dec_stable.
Qed.

(** ** What a pattern matches *)

Lemma last_char_nil p : last_char p [] = p.
Proof. done. Qed.

Lemma last_char_app p w1 w2 :
  last_char p (w1 ++ w2) = last_char (last_char p w1) w2.
Proof.
  unfold last_char. destruct w2 as [|x w2 _] using rev_ind.
  - by rewrite app_nil_r.
  - by rewrite app_assoc, !last_snoc.
Qed.

Lemma last_char_singleton p x : last_char p [x] = Some x.
Proof. done. Qed.

Lemma eat_sound (P : char → bool) :
  sound_for (λ _ w _, ∃ x, w = [x] ∧ P x = true) (eat P).
Proof.
  intros k [p [|x xs]] e; unfold eat; simpl; [done|].
  destruct (P x) eqn:HP; [|done]. intros Hk.
  exists [x], xs. eauto.
Qed.

Lemma rep_req_sound L body n :
  sound_for L body → sound_for (lang_n L n) (λ k, rep_req body n k).
Proof.
  intros Hb. induction n as [|n IH]; intros k c e; simpl.
  - intros Hk. exists [], c.2. by destruct c.
  - intros (w1 & a1 & Hc & HL & Hrest)%Hb.
    apply IH in Hrest as (w2 & a2 & Ha1 & Hn & Hk). simpl in *. subst a1.
    exists (w1 ++ w2), a2. rewrite last_char_app, <-app_assoc. eauto 10.
Qed.

Lemma rep_opt_sound L body m k c e :
  sound_for L body →
  rep_opt body m k c = Some e →
  ∃ n w a, n ≤ m ∧ c.2 = w ++ a ∧ lang_n L n c.1 w a
           ∧ k (last_char c.1 w, a) = Some e.
Proof.
  intros Hb. revert c. induction m as [|m IH]; intros c; simpl.
  - intros Hk. exists 0, [], c.2. destruct c. by repeat split.
  - destruct (body (rep_opt body m k) c) as [e'|] eqn:Hbody.
    + intros [= ->].
      apply Hb in Hbody as (w1 & a1 & Hc & HL & Hrest).
      apply IH in Hrest as (n & w2 & a2 & Hn & Ha1 & Hl & Hk). simpl in *.
      subst a1. exists (S n), (w1 ++ w2), a2.
      rewrite last_char_app, <-app_assoc. simpl.
      repeat split; try done; try lia. eauto.
    + intros Hk. exists 0, [], c.2. destruct c. repeat split; try done; lia.
Qed.

Lemma lang_n_app L n m p w1 w2 a :
  lang_n L n p w1 (w2 ++ a) → lang_n L m (last_char p w1) w2 a →
  lang_n L (n + m) p (w1 ++ w2) a.
Proof.
  revert p w1. induction n as [|n IH]; intros p w1; simpl.
  - by intros ->.
  - intros (u & v & -> & Hu & Hv) Hm.
    exists u, (v ++ w2). rewrite <-!app_assoc.
    repeat split; [done|]. apply IH; [done|]. by rewrite <-last_char_app.
Qed.

Lemma re_match_sound ic r : sound_for (lang ic r) (re_match ic r).
Proof.
  induction r as [|c|items| |r1 IH1 r2 IH2|r1 IH1 r2 IH2|lo hi r IH];
    intros k c0 e; simpl.
  - intros Hk. exists [], c0.2. by destruct c0.
  - apply (eat_sound (Char.eqb ic c)).
  - apply (eat_sound (class_match ic items)).
  - destruct (at_boundary c0) eqn:Hb; [|done]. intros Hk.
    exists [], c0.2. by destruct c0.
  - intros (w1 & a1 & Hc & HL & Hrest)%IH1.
    apply IH2 in Hrest as (w2 & a2 & Ha1 & H2 & Hk). simpl in *. subst a1.
    exists (w1 ++ w2), a2. rewrite last_char_app, <-app_assoc. eauto 10.
  - destruct (re_match ic r1 k c0) as [e'|] eqn:H1.
    + intros [= ->]. apply IH1 in H1 as (w & a & ? & ? & ?). eauto 10.
    + intros H2. apply IH2 in H2 as (w & a & ? & ? & ?). eauto 10.
  - intros Hreq.
    apply (rep_req_sound _ _ lo IH) in Hreq as (w1 & a1 & Hc & Hlo & Hopt).
    apply (rep_opt_sound (lang ic r)) in Hopt
      as (n & w2 & a2 & Hn & Ha1 & Hl & Hk); [|done]. simpl in *. subst a1.
    exists (w1 ++ w2), a2. rewrite last_char_app, <-app_assoc.
    repeat split; [done| |done]. exists (lo + n). repeat split; [lia| |].
    + destruct hi; [lia|done].
    + by apply lang_n_app.
Qed.

(** A match found at a position spells a word of the pattern there. *)
Lemma match_at_sound ic r ma p rest n :
  match_at ic r ma (p, rest) = Some n →
  ∃ w a, rest = w ++ a ∧ n = length w ∧ lang ic r p w a
         ∧ (ma = true → w ≠ []).
Proof.
  unfold match_at.
  destruct (re_match ic r (accept ma (p, rest)) (p, rest)) as [e|] eqn:Hm; [|done].
  intros [= <-]. apply re_match_sound in Hm as (w & a & Hc & HL & Hk).
  simpl in *. unfold accept in Hk. simpl in Hk. subst rest.
  exists w, a. rewrite length_app in *.
  destruct ma; simpl in Hk.
  - destruct (Nat.eqb_spec (length a) (length w + length a)); [done|].
    injection Hk as <-. simpl. repeat split; [lia|done|].
    intros _ ->. simpl in *. lia.
  - injection Hk as <-. simpl. repeat split; [lia|done|done].
Qed.

Lemma finditer_go_sound ic r skip prev rest pos0 pos t :
  (pos, t) ∈ finditer_go ic r skip prev rest pos0 →
  ∃ pre a, rest = pre ++ t ++ a ∧ pos = pos0 + length pre
           ∧ lang ic r (last_char prev pre) t a.
Proof.
  revert skip prev pos0. induction rest as [|x xs IH]; intros skip prev pos0.
  - destruct skip as [|skip]; simpl; [|by intros ?%elem_of_nil].
    intros Hin.
    assert (∀ ma n, match_at ic r ma (prev, []) = Some n →
              n = 0 ∧ lang ic r prev [] [] ∧ ma = false) as Hnil.
    { intros ma n (w & a & Hr & -> & HL & Hma)%match_at_sound.
      symmetry in Hr. apply app_eq_nil in Hr as [-> ->].
      repeat split; [done|]. destruct ma; [by destruct Hma|done]. }
    destruct (match_at ic r false (prev, [])) as [n|] eqn:H1;
      [|by apply elem_of_nil in Hin].
    destruct (Hnil _ _ H1) as (-> & HL & _).
    destruct (match_at ic r true (prev, [])) as [n|] eqn:H2.
    { by destruct (Hnil _ _ H2) as (_ & _ & ?). }
    apply elem_of_cons in Hin as [[= -> ->]|Hin]; [|by apply elem_of_nil in Hin].
    exists [], []. simpl. repeat split; [lia|done].
  - assert (∀ n, (pos, t) ∈ finditer_go ic r n (Some x) xs (S pos0) →
              ∃ pre a, x :: xs = pre ++ t ++ a ∧ pos = pos0 + length pre
                       ∧ lang ic r (last_char prev pre) t a) as Hnext.
    { intros n (pre & a & -> & -> & HL)%IH.
      exists (x :: pre), a. simpl. repeat split; [lia|].
      change (x :: pre) with ([x] ++ pre). by rewrite last_char_app. }
    assert (∀ ma n, match_at ic r ma (prev, x :: xs) = Some n →
              ∃ a, x :: xs = [] ++ take n (x :: xs) ++ a ∧ pos0 = pos0 + 0
                   ∧ lang ic r (last_char prev []) (take n (x :: xs)) a) as Hhere.
    { intros ma n (w & a & Hr & -> & HL & _)%match_at_sound.
      rewrite Hr, take_app_length. exists a. repeat split; [lia|done]. }
    destruct skip as [|skip]; [|apply Hnext].
    cbn [finditer_go].
    destruct (match_at ic r false (prev, x :: xs)) as [[|n]|] eqn:H1;
      [| |apply Hnext].
    + intros [[= -> ->]|Hin]%elem_of_cons.
      { destruct (Hhere _ _ H1) as (a & ? & ? & ?). exists [], a. eauto. }
      destruct (match_at ic r true (prev, x :: xs)) as [n|] eqn:H2;
        [|by eapply Hnext].
      apply elem_of_cons in Hin as [[= -> ->]|Hin]; [|by eapply Hnext].
      destruct (Hhere _ _ H2) as (a & ? & ? & ?). exists [], a. eauto.
    + intros [[= -> ->]|Hin]%elem_of_cons; [|by eapply Hnext].
      destruct (Hhere _ _ H1) as (a & ? & ? & ?). exists [], a. eauto.
Qed.

(** ** Where a hit lies in the page *)

Lemma last_char_none w : last_char None w = last w.
Proof. unfold last_char. by destruct (last w). Qed.

Lemma find_pii_candidates self text d :
  d ∈ find_pii self text → d ∈ candidates self text.
Proof.
  intros Hd. rewrite <-(sorted_perm d_start).
  by eapply elem_of_sublist, unique_from_sublist.
Qed.

(** Where a hit of a pattern lies in the page. *)
Lemma hits_sound ty ic text p d :
  d ∈ hits ty ic text p →
  ∃ before after,
    text = before ++ d_text d ++ after
    ∧ length before = d_start d
    ∧ lang ic p (last before) (d_text d) after.
Proof.
  unfold hits, finditer.
  intros (m & -> & Hm)%list_elem_of_fmap.
  destruct m as [pos t].
  apply finditer_go_sound in Hm as (pre & a & Htext & -> & HL).
  exists pre, a. simpl. by rewrite <-last_char_none.
Qed.

(** ** Literal phrases *)

Lemma folds_to_spec c y :
  Char.folds_to c y = true
  ↔ y = Char.lower c ∨ y ∈ Char.fixes (Char.lower c).
Proof.
  unfold Char.folds_to.
  by rewrite orb_true_iff, N.eqb_eq, bool_decide_eq_true.
Qed.

Lemma eqb_case_equal c x : Char.eqb true c x = true ↔ case_equal c x.
Proof.
  unfold Char.eqb, case_equal. simpl.
  destruct (Char.is_cased c) eqn:Hc.
  - rewrite folds_to_spec. split; [by right|].
    intros [->|[_ Hx]]; [by left|done].
  - rewrite N.eqb_eq. split; [by left|]. by intros [?|[? _]].
Qed.

Lemma lang_lits ic s p w a :
  lang ic (lits s) p w a ↔ Forall2 (λ c x, Char.eqb ic c x = true) s w.
Proof.
  unfold lits, seqs. revert p w. induction s as [|c s IH]; intros p w; simpl.
  - split; [by intros ->|by intros ->%Forall2_nil_inv_l].
  - split.
    + intros (w1 & w2 & -> & (x & -> & Hx) & Hrest%IH). by constructor.
    + intros (x & w' & Hx & Hrest & ->)%Forall2_cons_inv_l.
      exists [x], w'. split; [done|]. split; [by exists x|]. by apply IH.
Qed.

Lemma last_char_cons p x l : last_char p (x :: l) = last_char (Some x) l.
Proof. change (x :: l) with ([x] ++ l). by rewrite last_char_app. Qed.

Lemma re_match_lits ic s k p rest :
  re_match ic (lits s) k (p, rest)
  = if starts_with ic s rest
    then k (last_char p (take (length s) rest), drop (length s) rest)
    else None.
Proof.
  unfold lits, seqs. revert p rest. induction s as [|c s IH]; intros p rest; simpl.
  - by rewrite take_0, drop_0.
  - unfold eat. simpl. destruct rest as [|x xs]; [done|].
    destruct (Char.eqb ic c x); [|done]. simpl.
    rewrite IH. by rewrite last_char_cons.
Qed.

Lemma starts_with_spec ic s rest :
  starts_with ic s rest = true
  ↔ length s ≤ length rest
    ∧ Forall2 (λ c x, Char.eqb ic c x = true) s (take (length s) rest).
Proof.
  revert rest. induction s as [|c s IH]; intros [|x xs]; simpl.
  - split; [done|]. done.
  - split; [|done]. intros _. split; [lia|done].
  - split; [done|]. intros [? _]. lia.
  - rewrite andb_true_iff, IH. split.
    + intros [Hc [Hlen Hlow]]. split; [lia|]. by constructor.
    + intros [Hlen (Hc & Hlow)%Forall2_cons]. split; [done|]. split; [lia|done].
Qed.

Lemma match_at_lits ic s ma p rest :
  match_at ic (lits s) ma (p, rest)
  = if starts_with ic s rest
    then (if ma && (length s =? 0) then None else Some (length s))
    else None.
Proof.
  unfold match_at. rewrite re_match_lits.
  destruct (starts_with ic s rest) eqn:Hs; [|done].
  assert (length s ≤ length rest) as Hlen by by apply starts_with_spec in Hs as [? _].
  unfold accept. simpl. rewrite length_drop.
  destruct ma; simpl.
  - destruct (Nat.eqb_spec (length rest - length s) (length rest));
      destruct (Nat.eqb_spec (length s) 0); try lia; try done.
    simpl. rewrite length_drop. f_equal. lia.
  - rewrite length_drop. f_equal. lia.
Qed.

(** Matches start no earlier than where the scan stands. *)
Lemma finditer_go_from ic r skip prev rest pos0 pos t :
  (pos, t) ∈ finditer_go ic r skip prev rest pos0 → pos0 + skip ≤ pos.
Proof.
  revert skip prev pos0. induction rest as [|x xs IH]; intros skip prev pos0.
  - destruct skip as [|skip]; simpl; [|by intros ?%elem_of_nil].
    repeat case_match; rewrite ?elem_of_cons, ?elem_of_nil;
      intros Hin; destruct_or?; simplify_eq; try done; lia.
  - destruct skip as [|skip]; cbn [finditer_go].
    + repeat case_match; rewrite ?elem_of_cons; intros Hin; destruct_or?;
        simplify_eq; try lia; apply IH in Hin; lia.
    + intros Hin%IH. lia.
Qed.

(** Successive matches of a literal phrase do not overlap. *)
Lemma finditer_lits_apart ic s skip prev rest pos0 :
  StronglySorted (λ m1 m2 : nat * str, m1.1 + max 1 (length s) ≤ m2.1)
    (finditer_go ic (lits s) skip prev rest pos0).
Proof.
  revert skip prev pos0. induction rest as [|x xs IH]; intros skip prev pos0.
  - destruct skip as [|skip]; simpl; [|constructor].
    rewrite !match_at_lits.
    destruct (starts_with ic s []); [|constructor].
    destruct s as [|c s]; simpl; repeat constructor.
  - destruct skip as [|skip]; cbn [finditer_go]; [|apply IH].
    rewrite !match_at_lits.
    destruct (starts_with ic s (x :: xs)); [|apply IH].
    destruct s as [|c s]; simpl.
    + constructor; [apply IH|]. apply Forall_forall.
      intros [pos t] Hin%finditer_go_from. simpl. lia.
    + constructor; [apply IH|]. apply Forall_forall.
      intros [pos t] Hin%finditer_go_from. simpl. lia.
Qed.

(** Every place where the phrase stands is found, or lies inside a match
    that starts before it. *)
Lemma finditer_lits_cover ic s skip prev rest pos0 q :
  skip ≤ q → q ≤ length rest →
  starts_with ic s (drop q rest) = true →
  ∃ m, m ∈ finditer_go ic (lits s) skip prev rest pos0
       ∧ m.1 ≤ pos0 + q
       ∧ (pos0 + q = m.1 ∨ pos0 + q < m.1 + length s).
Proof.
  revert skip prev pos0 q. induction rest as [|x xs IH]; intros skip prev pos0 q.
  - simpl. intros Hskip Hq Hs. assert (q = 0) as -> by lia.
    assert (skip = 0) as -> by lia. simpl in *.
    rewrite !match_at_lits, Hs.
    destruct s as [|c s]; [|done]. simpl.
    exists (pos0, []). simpl. split; [by left|]. lia.
  - intros Hskip Hq Hs.
    assert (∀ n, n ≤ q - 1 → 1 ≤ q →
              ∃ m, m ∈ finditer_go ic (lits s) n (Some x) xs (S pos0)
                   ∧ m.1 ≤ pos0 + q
                   ∧ (pos0 + q = m.1 ∨ pos0 + q < m.1 + length s)) as Hnext.
    { intros n Hn Hq1. destruct q as [|q]; [lia|]. simpl in *.
      destruct (IH n (Some x) (S pos0) q) as (m & Hm & Hle & Hcov);
        [lia|lia|done|].
      exists m. split; [done|]. lia. }
    destruct skip as [|skip]; cbn [finditer_go]; [|apply Hnext; lia].
    rewrite !match_at_lits.
    destruct (starts_with ic s (x :: xs)) eqn:Hhere.
    + destruct s as [|c s]; simpl.
      * destruct q as [|q].
        { exists (pos0, []). simpl. split; [by left|]. lia. }
        destruct (Hnext 0) as (m & Hm & ?); [lia|lia|].
        exists m. split; [by right|done].
      * destruct (decide (q < S (length s))) as [Hin|Hout].
        { exists (pos0, x :: take (length s) xs). simpl.
          split; [by left|]. lia. }
        destruct (Hnext (length s - 0)) as (m & Hm & ?); [lia|lia|].
        exists m. split; [by right|done].
    + destruct q as [|q]; [simpl in Hs; congruence|].
      apply Hnext; lia.
Qed.

Lemma custom_hit_is_candidate self text w d :
  w ∈ custom_words self →
  d ∈ hits "CUSTOM" true text (re_escape w) →
  d ∈ candidates self text.
Proof.
  intros Hw Hd. unfold candidates. rewrite !elem_of_app. do 8 right.
  unfold custom_hits. apply list_elem_of_bind. eauto.
Qed.

Lemma custom_candidate_origin self text d :
  d ∈ candidates self text → d_type d = "CUSTOM" →
  ∃ w, w ∈ custom_words self ∧ d ∈ hits "CUSTOM" true text (re_escape w).
Proof.
  unfold candidates. intros Hd Hty.
  repeat (apply elem_of_app in Hd as [Hd|Hd];
          [try (apply category_type in Hd; congruence)|]).
  - destruct (enabled self "names"); [|by apply elem_of_nil in Hd].
    apply list_elem_of_bind in Hd as (n & Hd%hits_type & _). congruence.
  - unfold custom_hits in Hd.
    apply list_elem_of_bind in Hd as (w & Hd & Hw). eauto.
Qed.

Lemma Forall2_case_equal s w :
  Forall2 (λ c x, Char.eqb true c x = true) s w ↔ Forall2 case_equal s w.
Proof.
  split; intros Hf; (eapply Forall2_impl; [exact Hf|]); intros c x;
    by rewrite eqb_case_equal.
Qed.

(** C8, as the code has it.  For a custom phrase the scan goes left to
    right over the page and reports the places where the phrase stands,
    letter case aside, one candidate of type CUSTOM per place and with the
    text as the page has it; the reported places do not overlap, and a place
    where the phrase stands is either reported or lies inside a reported
    one that starts before it.  No other candidate has the type CUSTOM.
    Phrase and page are any strings of code points, and letter case is
    what [re.IGNORECASE] makes of it: a page character stands for a phrase
    character when it is that character or, for a cased phrase character,
    lowers to its lower case or to an extra case that [re] lists for it. *)
Theorem custom_phrase_matches (self : WorkerThread) (text w : str) :
  w ∈ custom_words self →
  let found := hits "CUSTOM" true text (re_escape w) in
  let n := length w in
  (∀ d, d ∈ found →
     d ∈ candidates self text ∧ d_type d = "CUSTOM"
     ∧ occurs_at w text (d_start d)
     ∧ d_text d = take n (drop (d_start d) text))
  ∧ (∀ p, occurs_at w text p →
       ∃ d, d ∈ found ∧ d_start d ≤ p ∧ (p = d_start d ∨ p < d_start d + n))
  ∧ StronglySorted (λ d1 d2, d_start d1 + max 1 n ≤ d_start d2) found
  ∧ (∀ d, d ∈ candidates self text → d_type d = "CUSTOM" →
       ∃ w', w' ∈ custom_words self
             ∧ d ∈ hits "CUSTOM" true text (re_escape w')).
Proof.
  intros Hw found n. split_and!.
  - intros d Hd. split; [by eapply custom_hit_is_candidate|].
    split; [by eapply hits_type|].
    apply hits_sound in Hd as (before & after & Htext & Hlen & HL).
    apply lang_lits in HL. pose proof (Forall2_length _ _ _ HL) as Hlen'.
    fold n in Hlen'.
    unfold occurs_at. fold n. rewrite Htext, <-Hlen.
    rewrite drop_app_length, Hlen', take_app_length.
    split; [|done]. split; [|by apply Forall2_case_equal].
    rewrite !length_app. lia.
  - intros p [Hlen Hlow].
    destruct (finditer_lits_cover true w 0 None text 0 p)
      as ([pos t] & Hm & Hle & Hcov); [lia|lia| |].
    { apply starts_with_spec. rewrite length_drop. split; [lia|].
      by apply Forall2_case_equal. }
    exists (Detection t "CUSTOM" pos None). simpl in *.
    split; [|fold n in Hcov; lia].
    unfold found, hits, finditer, re_escape. apply list_elem_of_fmap.
    by exists (pos, t).
  - unfold found, hits, finditer, re_escape.
    pose proof (finditer_lits_apart true w 0 None text 0) as Hs.
    fold n in Hs. induction Hs as [|m ms Hs IH Hm]; [constructor|].
    rewrite !fmap_cons. constructor; [done|].
    apply Forall_forall. intros d (m1 & -> & Hin)%list_elem_of_fmap.
    rewrite Forall_forall in Hm. by apply Hm.
  - apply custom_candidate_origin.
Qed.

(** ** Characters without case *)

(** Comparisons of code points, as propositions. *)
Ltac char_props :=
  unfold Char.in_range, Char.between, Char.is_ascii in *;
  repeat match goal with
         | H : context [Char.code ?c] |- _ =>
             let n := eval vm_compute in (Char.code c) in
             change (Char.code c) with n in H
         | |- context [Char.code ?c] =>
             let n := eval vm_compute in (Char.code c) in
             change (Char.code c) with n
         end;
  rewrite ?andb_true_iff, ?orb_true_iff, ?andb_false_iff, ?orb_false_iff,
    ?N.leb_le, ?N.ltb_lt, ?N.eqb_eq, ?N.leb_gt, ?N.ltb_ge, ?N.eqb_neq in *.

Lemma caseless_lower c : caseless c = true → Char.lower c = c.
Proof.
  unfold caseless, Char.is_cased, Char.lower.
  destruct (Char.is_ascii c); [|done]. simpl.
  destruct (Char.in_range "A" "Z" c); [done|done].
Qed.

Lemma caseless_fixes c : caseless c = true → Char.fixes c = [].
Proof.
  unfold caseless, Char.is_cased, Char.fixes.
  destruct (Char.is_ascii c) eqn:Ha; [|done]. simpl.
  intros Hc%negb_true_iff.
  destruct (N.eqb_spec c (Char.code "i")) as [->|_]; [by vm_compute in Hc|].
  destruct (N.eqb_spec c (Char.code "s")) as [->|_]; [by vm_compute in Hc|done].
Qed.

Lemma caseless_folds c y : caseless c = true → Char.folds_to c y = (y =? c)%N.
Proof.
  intros Hc. unfold Char.folds_to.
  rewrite (caseless_lower c Hc), (caseless_fixes c Hc).
  by rewrite orb_false_r.
Qed.

Lemma caseless_eqb ic c x :
  caseless c = true → Char.eqb ic c x = true ↔ x = c.
Proof.
  unfold caseless. intros [_ Hc%negb_true_iff]%andb_true_iff.
  unfold Char.eqb. rewrite Hc, andb_false_r. apply N.eqb_eq.
Qed.

Lemma elem_of_range_chars lo hi c :
  c ∈ range_chars lo hi ↔ Char.in_range lo hi c = true.
Proof.
  unfold range_chars, Char.in_range, Char.between, Char.code.
  rewrite list_elem_of_fmap, andb_true_iff, !N.leb_le.
  unfold nat_of_ascii. split.
  - intros (n & -> & Hn%elem_of_seq). lia.
  - intros [Hlo Hhi]. exists (N.to_nat c). split; [lia|].
    apply elem_of_seq. lia.
Qed.

Lemma existsb_false {A} (f : A → bool) l :
  (∀ x, x ∈ l → f x = false) → existsb f l = false.
Proof.
  induction l as [|x l IH]; intros Hf; simpl; [done|].
  rewrite Hf by left. apply IH. intros y Hy. apply Hf. by right.
Qed.

Lemma existsb_range (f g : char → bool) lo hi :
  (∀ c, c ∈ range_chars lo hi → f c = g c) →
  existsb f (range_chars lo hi) = existsb g (range_chars lo hi).
Proof.
  induction (range_chars lo hi) as [|x l IH]; intros Hf; simpl; [done|].
  rewrite Hf by left. f_equal. apply IH. intros y Hy. apply Hf. by right.
Qed.

Lemma existsb_eqb_range lo hi x :
  existsb (λ c, (x =? c)%N) (range_chars lo hi) = Char.in_range lo hi x.
Proof.
  apply eq_true_iff_eq. rewrite <-elem_of_range_chars, existsb_exists.
  setoid_rewrite <-list_elem_of_In. split.
  - by intros (c & Hc & ->%N.eqb_eq).
  - intros Hx. exists x. by rewrite N.eqb_refl.
Qed.

Lemma item_caseless_cased i : item_caseless i = true → item_cased i = false.
Proof.
  destruct i as [c|lo hi| | |]; simpl; try done.
  - by intros [_ ->%negb_true_iff]%andb_true_iff.
  - intros Hall. apply existsb_false. intros c Hc.
    rewrite forallb_forall in Hall. apply list_elem_of_In, Hall in Hc.
    by apply andb_true_iff in Hc as [_ ->%negb_true_iff].
Qed.

Lemma item_caseless_folds i x :
  item_caseless i = true → item_folds x i = item_match x i.
Proof.
  destruct i as [c|lo hi| | |]; simpl; try done.
  - apply caseless_folds.
  - intros Hall. rewrite <-existsb_eqb_range. apply existsb_range.
    intros c Hc. apply caseless_folds.
    rewrite forallb_forall in Hall. by apply Hall, list_elem_of_In.
Qed.

(** A set without letters is read the same with and without
    [re.IGNORECASE]. *)
Lemma class_caseless ic items x :
  forallb item_caseless items = true →
  class_match ic items x = existsb (item_match x) items.
Proof.
  intros Hall. unfold class_match. destruct ic; [|done].
  assert (existsb item_cased items = false) as ->.
  { apply existsb_false. intros i Hi. apply item_caseless_cased.
    rewrite forallb_forall in Hall. by apply Hall, list_elem_of_In. }
  induction items as [|i items IH]; simpl; [done|].
  simpl in Hall. apply andb_true_iff in Hall as [Hi Hall].
  by rewrite item_caseless_folds, IH.
Qed.

(** ** Repeats of one character *)

Lemma lang_n_chars (P : char → bool) n p w a :
  lang_n (λ _ w _, ∃ x, w = [x] ∧ P x = true) n p w a
  ↔ length w = n ∧ Forall (λ x, P x = true) w.
Proof.
  revert p w. induction n as [|n IH]; intros p w; simpl.
  - split; [by intros ->|]. by intros [->%nil_length_inv _].
  - split.
    + intros (w1 & w2 & -> & (x & -> & Hx) & [Hlen Hall]%IH). simpl.
      split; [by rewrite Hlen|by constructor].
    + intros [Hlen Hall]. destruct w as [|x w]; [done|].
      apply Forall_cons in Hall as [Hx Hall].
      exists [x], w. split; [done|]. split; [by exists x|].
      apply IH. split; [|done]. simpl in Hlen. lia.
Qed.

Lemma lang_rep_class ic lo hi items p w a :
  lang ic (Rep lo hi (Class items)) p w a
  ↔ lo ≤ length w
    ∧ match hi with Some h => length w ≤ lo + (h - lo) | None => True end
    ∧ Forall (λ x, class_match ic items x = true) w.
Proof.
  simpl. split.
  - intros (n & Hlo & Hhi & [<- Hall]%lang_n_chars). done.
  - intros (Hlo & Hhi & Hall). exists (length w). split; [done|].
    split; [done|]. by apply lang_n_chars.
Qed.

Lemma lang_opt ic r p w a :
  lang ic (opt r) p w a ↔ w = [] ∨ lang ic r p w a.
Proof.
  unfold opt. simpl. split.
  - intros (n & _ & Hn & HL). destruct n as [|[|n]]; [by left| |lia].
    right. destruct HL as (w1 & w2 & -> & HL & ->).
    by rewrite app_nil_r in *.
  - intros [->|HL].
    + exists 0. split; [lia|]. split; [lia|done].
    + exists 1. split; [lia|]. split; [lia|].
      exists w, []. by rewrite !app_nil_r.
Qed.

Lemma lang_opt_lit ic (c : char) p w a :
  caseless c = true → lang ic (opt (Lit c)) p w a ↔ at_most [c] w.
Proof.
  intros Hc. rewrite lang_opt. unfold at_most. simpl. split.
  - intros [->|(x & -> & ->%caseless_eqb)]; [by left|by right|done].
  - intros [-> | ->]; [by left|]. right. exists c. split; [done|].
    by apply caseless_eqb.
Qed.

Lemma lang_lit ic (c : char) p w a :
  caseless c = true → lang ic (Lit c) p w a ↔ w = [c].
Proof.
  intros Hc. simpl. split.
  - by intros (x & -> & ->%caseless_eqb).
  - intros ->. exists c. split; [done|]. by apply caseless_eqb.
Qed.

Lemma lang_class ic items p w a :
  forallb item_caseless items = true →
  lang ic (Class items) p w a
  ↔ ∃ x, w = [x] ∧ existsb (item_match x) items = true.
Proof. intros Hc. simpl. by setoid_rewrite (class_caseless ic items _ Hc). Qed.

(** ** The parts of a date *)

Lemma lang_date_sep ic p w a : lang ic date_sep p w a ↔ sep_text w.
Proof.
  unfold date_sep. rewrite lang_class by done. unfold sep_text. simpl.
  split.
  - intros (x & -> & Hx). char_props. destruct Hx as [->|[->|?]]; auto. done.
  - intros [-> | ->]; eexists; (split; [done|]); by vm_compute.
Qed.

Lemma lang_digit ic p w a :
  lang ic digit p w a ↔ ∃ x, w = [x] ∧ Char.is_digit x = true.
Proof.
  unfold digit. rewrite lang_class by done. simpl.
  by setoid_rewrite orb_false_r.
Qed.

Lemma lang_digits ic lo hi p w a :
  lang ic (Rep lo hi digit) p w a
  ↔ lo ≤ length w
    ∧ match hi with Some h => length w ≤ lo + (h - lo) | None => True end
    ∧ Forall (λ x, Char.is_digit x = true) w.
Proof.
  unfold digit. rewrite lang_rep_class.
  setoid_rewrite (class_caseless ic [CDigit]); [|done]. simpl.
  by setoid_rewrite orb_false_r.
Qed.

Lemma lang_blanks ic p w a : lang ic (plus space) p w a ↔ blanks w.
Proof.
  unfold plus, space, blanks. rewrite lang_rep_class.
  setoid_rewrite (class_caseless ic [CSpace]); [|done]. simpl.
  setoid_rewrite orb_false_r. split.
  - intros (Hlen & _ & Hall). split; [|done]. intros ->. simpl in Hlen. lia.
  - intros [Hne Hall]. split; [|done]. destruct w; [done|]. simpl. lia.
Qed.

Lemma lang_seq ic r1 r2 p w a :
  lang ic (Seq r1 r2) p w a
  ↔ ∃ w1 w2, w = w1 ++ w2 ∧ lang ic r1 p w1 (w2 ++ a)
             ∧ lang ic r2 (last_char p w1) w2 a.
Proof. done. Qed.

Lemma lang_alt ic r1 r2 p w a :
  lang ic (Alt r1 r2) p w a ↔ lang ic r1 p w a ∨ lang ic r2 p w a.
Proof. done. Qed.

Lemma lang_seqs_cons ic r rs p w a :
  lang ic (seqs (r :: rs)) p w a
  ↔ ∃ w1 w2, w = w1 ++ w2 ∧ lang ic r p w1 (w2 ++ a)
             ∧ lang ic (seqs rs) (last_char p w1) w2 a.
Proof. done. Qed.

Lemma lang_seqs_nil ic p w a : lang ic (seqs []) p w a ↔ w = [].
Proof. done. Qed.

Lemma lang_wordb ic p w a :
  lang ic WordB p w a ↔ w = [] ∧ at_boundary (p, a) = true.
Proof. done. Qed.

Lemma Forall2_caseless ic s w :
  Forall (λ c, caseless c = true) s →
  Forall2 (λ c x, Char.eqb ic c x = true) s w ↔ w = s.
Proof.
  intros Hs. revert w. induction Hs as [|c s Hc Hs IH]; intros w.
  - split; [by intros ->%Forall2_nil_inv_l|by intros ->].
  - split.
    + intros (x & w' & ->%caseless_eqb & ->%IH & ->)%Forall2_cons_inv_l; done.
    + intros ->. constructor; [by apply caseless_eqb|by apply IH].
Qed.

(** A word without letters spells itself only. *)
Lemma lang_word ic s p w a :
  forallb caseless (u s) = true → lang ic (word s) p w a ↔ w = u s.
Proof.
  intros Hs. unfold word. rewrite lang_lits. apply Forall2_caseless.
  apply Forall_forall. intros c Hc. rewrite forallb_forall in Hs.
  by apply Hs, list_elem_of_In.
Qed.

Lemma lang_year ic p w a : lang ic year p w a ↔ year_text w.
Proof.
  unfold year, century, times. rewrite lang_seq. unfold year_text. split.
  - intros (c & dd & -> & Hc & (Hlo & Hhi & Hall)%lang_digits).
    assert (length dd = 2) as Hdd by lia.
    destruct dd as [|d1 [|d2 [|? ?]]]; try done.
    apply Forall_cons in Hall as [H1 Hall]. apply Forall_cons in Hall as [H2 _].
    exists d1, d2. split; [done|]. split; [done|].
    apply lang_alt in Hc as [Hc|Hc]; apply lang_word in Hc as ->; auto.
  - intros (d1 & d2 & H1 & H2 & Hy).
    assert (lang ic (Rep 2 (Some 2) digit) (last_char p (take 2 w)) [d1; d2] a)
      as Hdd.
    { apply lang_digits. simpl. split; [lia|]. split; [lia|].
      by repeat constructor. }
    destruct Hy as [-> | ->].
    + exists (u "19"), [d1; d2]. split; [done|]. split; [|done].
      apply lang_alt. left. by apply lang_word.
    + exists (u "20"), [d1; d2]. split; [done|]. split; [|done].
      apply lang_alt. right. by apply lang_word.
Qed.

Lemma lang_range ic lo hi p w a :
  forallb caseless (range_chars lo hi) = true →
  lang ic (Class [CRange lo hi]) p w a
  ↔ ∃ x, w = [x] ∧ Char.in_range lo hi x = true.
Proof.
  intros Hc. rewrite lang_class by (simpl; by rewrite Hc).
  simpl. by setoid_rewrite orb_false_r.
Qed.

(** A number below ten with or without a zero before it. *)
Lemma lang_one_digit ic p w a :
  lang ic (Seq (opt (Lit "0")) (Class [CRange "1" "9"])) p w a
  ↔ ∃ c, Char.in_range "1" "9" c = true ∧ (w = [c] ∨ w = u "0" ++ [c]).
Proof.
  rewrite lang_seq. split.
  - intros (w1 & w2 & -> & Hz & (c & -> & Hc)%lang_range); [|by vm_compute].
    apply lang_opt_lit in Hz; [|by vm_compute].
    destruct Hz as [-> | ->]; eauto.
  - intros (c & Hc & [-> | ->]).
    + exists [], [c]. split; [done|].
      split; [apply lang_opt_lit; [by vm_compute|by left]|].
      apply lang_range; [by vm_compute|eauto].
    + exists (u "0"), [c]. split; [done|].
      split; [apply lang_opt_lit; [by vm_compute|by right]|].
      apply lang_range; [by vm_compute|eauto].
Qed.

Lemma lang_month_num ic p w a : lang ic month_num p w a ↔ month_text w.
Proof.
  unfold month_num, month_text. rewrite lang_alt, lang_one_digit.
  apply or_iff_compat_l. rewrite lang_seq. split.
  - intros (w1 & w2 & -> & ->%lang_lit & (c & -> & Hc)%lang_range);
      [eauto|by vm_compute|by vm_compute].
  - intros (c & Hc & ->). exists (u "1"), [c]. split; [done|].
    split; [by apply lang_lit|]. apply lang_range; [by vm_compute|eauto].
Qed.

Lemma lang_day_num ic p w a : lang ic day_num p w a ↔ day_text w.
Proof.
  unfold day_num, day_text, alts. rewrite !lang_alt, lang_one_digit.
  apply or_iff_compat_l. rewrite !lang_seq. split.
  - intros [(w1 & w2 & -> & (x & -> & Hx)%lang_class & (c & -> & Hc)%lang_digit)
           |(w1 & w2 & -> & ->%lang_lit & (c & -> & Hc)%lang_class)];
      try by vm_compute.
    + left. exists c. split; [done|]. simpl in Hx. char_props.
      destruct Hx as [->|[->|?]]; [by left|by right|done].
    + right. simpl in Hc. char_props.
      destruct Hc as [->|[->|?]]; [by left|by right|done].
  - intros [(c & Hc & Hw)|Hw].
    + left. destruct Hw as [-> | ->].
      * exists (u "1"), [c]. split; [done|]. split.
        -- apply lang_class; [by vm_compute|]. by exists (Char.code "1").
        -- apply lang_digit. eauto.
      * exists (u "2"), [c]. split; [done|]. split.
        -- apply lang_class; [by vm_compute|]. by exists (Char.code "2").
        -- apply lang_digit. eauto.
    + right. destruct Hw as [-> | ->].
      * exists (u "3"), (u "0"). split; [done|]. split.
        -- by apply lang_lit.
        -- apply lang_class; [by vm_compute|]. by exists (Char.code "0").
      * exists (u "3"), (u "1"). split; [done|]. split.
        -- by apply lang_lit.
        -- apply lang_class; [by vm_compute|]. by exists (Char.code "1").
Qed.

Lemma lang_alts_words ic names p w a :
  lang ic (alts (word <$> names)) p w a
  ↔ ∃ name, name ∈ names ∧ lang ic (word name) p w a.
Proof.
  induction names as [|n [|n' names] IH].
  - simpl. split; [|by intros (? & ?%elem_of_nil & _)].
    intros (x & _ & Hx). unfold class_match in Hx. by destruct ic.
  - simpl. split; [intros HL; exists n; split; [by left|done]|].
    by intros (? & ->%list_elem_of_singleton & HL).
  - change (alts (word <$> n :: n' :: names))
      with (Alt (word n) (alts (word <$> n' :: names))).
    rewrite lang_alt, IH. split.
    + intros [HL|(m & Hm & HL)]; [exists n; split; [by left|done]|].
      exists m. split; [by right|done].
    + intros (m & [->|Hm]%elem_of_cons & HL); [by left|]. right. eauto.
Qed.

Lemma lang_month_name p w a : lang true month_name p w a ↔ month_name_text w.
Proof.
  unfold month_name, month_name_text. fold MONTHS. rewrite lang_alts_words.
  unfold word. by setoid_rewrite lang_lits; setoid_rewrite Forall2_case_equal.
Qed.

Lemma lower_small c : Char.in_range "a" "z" c = true → Char.lower c = c.
Proof.
  intros Hc. unfold Char.lower.
  assert (Char.is_ascii c = true) as -> by (char_props; lia).
  assert (Char.in_range "A" "Z" c = false) as ->; [|done].
  apply not_true_is_false. intros Hup. char_props. lia.
Qed.

(** What the set a to z holds once [re.IGNORECASE] has added the extra
    cases of its members. *)
Lemma letter_class x :
  class_match true [CRange "a" "z"] x = true ↔ is_letter x.
Proof.
  unfold class_match, is_letter.
  assert (existsb item_cased [CRange "a" "z"] = true) as -> by by vm_compute.
  cbn [existsb item_folds]. rewrite orb_false_r, existsb_exists.
  setoid_rewrite <-list_elem_of_In. setoid_rewrite elem_of_range_chars.
  setoid_rewrite folds_to_spec. split.
  - intros (c & Hc & Hy). rewrite (lower_small c Hc) in Hy.
    destruct Hy as [->|Hy]; [by left|]. right.
    unfold Char.fixes in Hy.
    assert (Char.is_ascii c = true) as Ha by (clear Hy; char_props; lia).
    rewrite Ha in Hy.
    destruct (c =? Char.code "i")%N;
      [left; by apply list_elem_of_singleton in Hy|].
    destruct (c =? Char.code "s")%N;
      [right; by apply list_elem_of_singleton in Hy|].
    by apply elem_of_nil in Hy.
  - intros [Hy|[Hy|Hy]].
    + exists (Char.lower x). split; [done|]. left. by rewrite (lower_small (Char.lower x)).
    + exists (Char.code "i"). split; [by vm_compute|]. right. rewrite Hy.
      vm_compute. by left.
    + exists (Char.code "s"). split; [by vm_compute|]. right. rewrite Hy.
      vm_compute. by left.
Qed.

Lemma lang_letters p w a :
  lang true (star (Class [CRange "a" "z"])) p w a ↔ Forall is_letter w.
Proof.
  unfold star. rewrite lang_rep_class. split.
  - intros (_ & _ & Hall). eapply Forall_impl; [exact Hall|].
    intros x. by rewrite letter_class.
  - intros Hall. split; [lia|]. split; [done|].
    eapply Forall_impl; [exact Hall|]. intros x. by rewrite letter_class.
Qed.

Lemma lang_day_digits ic p w a :
  lang ic (Rep 1 (Some 2) digit) p w a ↔ day_digits w.
Proof.
  rewrite lang_digits. unfold day_digits. split.
  - intros (? & ? & ?). split; [done|lia].
  - intros [? ?]. split; [lia|]. split; [lia|done].
Qed.

Lemma lang_dot ic p w a : lang ic (opt (Lit ".")) p w a ↔ at_most (u ".") w.
Proof. by apply lang_opt_lit. Qed.

Lemma lang_comma ic p w a : lang ic (opt (Lit ",")) p w a ↔ at_most (u ",") w.
Proof. by apply lang_opt_lit. Qed.

(** ** The three date-of-birth rules *)

Ltac seq_intro w :=
  apply lang_seqs_cons; exists w; eexists; split; [reflexivity|split].

Lemma lang_DOB_MDY ic p t a :
  lang ic DOB_MDY p t a
  ↔ at_boundary (p, t ++ a) = true ∧ at_boundary (last_char p t, a) = true
    ∧ mdy_format t.
Proof.
  unfold DOB_MDY, mdy_format. split.
  - intros (w0 & r0 & -> & [-> Hb1]%lang_wordb
            & (m & r1 & -> & Hm%lang_month_num
            & (s1 & r2 & -> & Hs1%lang_date_sep
            & (d & r3 & -> & Hd%lang_day_num
            & (s2 & r4 & -> & Hs2%lang_date_sep
            & (y & r5 & -> & Hy%lang_year
            & (w6 & r6 & -> & [-> Hb2]%lang_wordb & ->%lang_seqs_nil
              )%lang_seqs_cons)%lang_seqs_cons)%lang_seqs_cons
              )%lang_seqs_cons)%lang_seqs_cons)%lang_seqs_cons)%lang_seqs_cons.
    rewrite ?last_char_app, ?last_char_nil, ?app_nil_r, ?app_nil_l in *.
    split; [done|]. split; [by rewrite <-?app_assoc in *|].
    by exists m, s1, d, s2, y.
  - intros (Hb1 & Hb2 & (m & s1 & d & s2 & y & -> & Hm & Hs1 & Hd & Hs2 & Hy)).
    replace (m ++ s1 ++ d ++ s2 ++ y)
      with ([] ++ m ++ s1 ++ d ++ s2 ++ y ++ [] ++ [])
      by by rewrite !app_nil_r.
    seq_intro (@nil N);
      [apply lang_wordb; by rewrite !app_nil_r, <-!app_assoc in *|].
    seq_intro m; [by apply lang_month_num|].
    seq_intro s1; [by apply lang_date_sep|].
    seq_intro d; [by apply lang_day_num|].
    seq_intro s2; [by apply lang_date_sep|].
    seq_intro y; [by apply lang_year|].
    seq_intro (@nil N); [|by apply lang_seqs_nil].
    apply lang_wordb. split; [done|].
    rewrite ?last_char_app, ?last_char_nil, ?app_nil_r, ?app_nil_l in *.
    by rewrite <-?app_assoc in *.
Qed.

Lemma lang_DOB_YMD ic p t a :
  lang ic DOB_YMD p t a
  ↔ at_boundary (p, t ++ a) = true ∧ at_boundary (last_char p t, a) = true
    ∧ ymd_format t.
Proof.
  unfold DOB_YMD, ymd_format. split.
  - intros (w0 & r0 & -> & [-> Hb1]%lang_wordb
            & (y & r1 & -> & Hy%lang_year
            & (s1 & r2 & -> & Hs1%lang_date_sep
            & (m & r3 & -> & Hm%lang_month_num
            & (s2 & r4 & -> & Hs2%lang_date_sep
            & (d & r5 & -> & Hd%lang_day_num
            & (w6 & r6 & -> & [-> Hb2]%lang_wordb & ->%lang_seqs_nil
              )%lang_seqs_cons)%lang_seqs_cons)%lang_seqs_cons
              )%lang_seqs_cons)%lang_seqs_cons)%lang_seqs_cons)%lang_seqs_cons.
    rewrite ?last_char_app, ?last_char_nil, ?app_nil_r, ?app_nil_l in *.
    split; [done|]. split; [by rewrite <-?app_assoc in *|].
    by exists y, s1, m, s2, d.
  - intros (Hb1 & Hb2 & (y & s1 & m & s2 & d & -> & Hy & Hs1 & Hm & Hs2 & Hd)).
    replace (y ++ s1 ++ m ++ s2 ++ d)
      with ([] ++ y ++ s1 ++ m ++ s2 ++ d ++ [] ++ [])
      by by rewrite !app_nil_r.
    seq_intro (@nil N);
      [apply lang_wordb; by rewrite !app_nil_r, <-!app_assoc in *|].
    seq_intro y; [by apply lang_year|].
    seq_intro s1; [by apply lang_date_sep|].
    seq_intro m; [by apply lang_month_num|].
    seq_intro s2; [by apply lang_date_sep|].
    seq_intro d; [by apply lang_day_num|].
    seq_intro (@nil N); [|by apply lang_seqs_nil].
    apply lang_wordb. split; [done|].
    rewrite ?last_char_app, ?last_char_nil, ?app_nil_r, ?app_nil_l in *.
    by rewrite <-?app_assoc in *.
Qed.

Lemma lang_DOB_MONTH p t a :
  lang true DOB_MONTH p t a
  ↔ at_boundary (p, t ++ a) = true ∧ at_boundary (last_char p t, a) = true
    ∧ month_format t.
Proof.
  unfold DOB_MONTH, month_format. split.
  - intros (w0 & r0 & -> & [-> Hb1]%lang_wordb
            & (mon & r1 & -> & Hmon%lang_month_name
            & (letters & r2 & -> & Hl%lang_letters
            & (dot & r3 & -> & Hdot%lang_dot
            & (sp1 & r4 & -> & Hsp1%lang_blanks
            & (day & r5 & -> & Hday%lang_day_digits
            & (comma & r6 & -> & Hcomma%lang_comma
            & (sp2 & r7 & -> & Hsp2%lang_blanks
            & (y & r8 & -> & Hy%lang_year
            & (w9 & r9 & -> & [-> Hb2]%lang_wordb & ->%lang_seqs_nil
              )%lang_seqs_cons)%lang_seqs_cons)%lang_seqs_cons
              )%lang_seqs_cons)%lang_seqs_cons)%lang_seqs_cons
              )%lang_seqs_cons)%lang_seqs_cons)%lang_seqs_cons)%lang_seqs_cons.
    rewrite ?last_char_app, ?last_char_nil, ?app_nil_r, ?app_nil_l in *.
    split; [done|]. split; [by rewrite <-?app_assoc in *|].
    by exists mon, letters, dot, sp1, day, comma, sp2, y.
  - intros (Hb1 & Hb2 & (mon & letters & dot & sp1 & day & comma & sp2 & y
                         & -> & Hmon & Hl & Hdot & Hsp1 & Hday & Hcomma
                         & Hsp2 & Hy)).
    replace (mon ++ letters ++ dot ++ sp1 ++ day ++ comma ++ sp2 ++ y)
      with ([] ++ mon ++ letters ++ dot ++ sp1 ++ day ++ comma ++ sp2 ++ y
            ++ [] ++ [])
      by by rewrite !app_nil_r.
    seq_intro (@nil N);
      [apply lang_wordb; by rewrite !app_nil_r, <-!app_assoc in *|].
    seq_intro mon; [by apply lang_month_name|].
    seq_intro letters; [by apply lang_letters|].
    seq_intro dot; [by apply lang_dot|].
    seq_intro sp1; [by apply lang_blanks|].
    seq_intro day; [by apply lang_day_digits|].
    seq_intro comma; [by apply lang_comma|].
    seq_intro sp2; [by apply lang_blanks|].
    seq_intro y; [by apply lang_year|].
    seq_intro (@nil N); [|by apply lang_seqs_nil].
    apply lang_wordb. split; [done|].
    rewrite ?last_char_app, ?last_char_nil, ?app_nil_r, ?app_nil_l in *.
    by rewrite <-?app_assoc in *.
Qed.

(** ** The matcher finds what the pattern spells *)

Lemma eat_complete (P : char → bool) :
  complete_for (λ _ w _, ∃ x, w = [x] ∧ P x = true) (eat P).
Proof.
  intros k p w a (x & -> & Hx) Hk. unfold eat. simpl. rewrite Hx.
  by rewrite last_char_singleton in Hk.
Qed.

Lemma lang_n_split L n1 n2 p w a :
  lang_n L (n1 + n2) p w a →
  ∃ w1 w2, w = w1 ++ w2 ∧ lang_n L n1 p w1 (w2 ++ a)
           ∧ lang_n L n2 (last_char p w1) w2 a.
Proof.
  revert p w. induction n1 as [|n1 IH]; intros p w; simpl.
  - intros Hn. exists [], w. by rewrite last_char_nil.
  - intros (v1 & v2 & -> & HL & (x1 & x2 & -> & H1 & H2)%IH).
    exists (v1 ++ x1), x2. rewrite <-app_assoc. split; [done|].
    split; [|by rewrite last_char_app].
    exists v1, x1. by rewrite <-app_assoc in HL.
Qed.

(** Rounds that read nothing can be left out. *)
Lemma lang_n_compress L m p w a :
  lang_n L m p w a → ∃ m', m' ≤ m ∧ m' ≤ length w ∧ lang_n L m' p w a.
Proof.
  revert p w. induction m as [|m IH]; intros p w; simpl.
  - intros ->. exists 0. by repeat split.
  - intros (w1 & w2 & -> & HL & (m' & Hm & Hlen & Hn)%IH).
    destruct w1 as [|x w1].
    + rewrite last_char_nil in Hn. exists m'. simpl. split; [lia|done].
    + exists (S m'). rewrite length_app. simpl. split; [lia|]. split; [lia|].
      by exists (x :: w1), w2.
Qed.

Lemma rep_opt_complete L body extra m k p w a :
  complete_for L body →
  lang_n L m p w a → m ≤ extra → is_Some (k (last_char p w, a)) →
  is_Some (rep_opt body extra k (p, w ++ a)).
Proof.
  intros Hb. revert m p w. induction extra as [|e IH]; intros m p w Hn Hm Hk.
  - assert (m = 0) as -> by lia. simpl in *. subst w.
    by rewrite last_char_nil in Hk.
  - simpl. destruct m as [|m].
    + simpl in Hn. subst w. rewrite last_char_nil in Hk.
      by destruct (body _ _).
    + destruct Hn as (w1 & w2 & -> & HL & Hn).
      assert (is_Some (body (rep_opt body e k) (p, w1 ++ w2 ++ a))) as [r Hr].
      { apply Hb; [done|]. apply (IH m); [done|lia|].
        by rewrite last_char_app in Hk. }
      rewrite <-app_assoc, Hr. by eexists.
Qed.

Lemma rep_req_complete L body lo :
  complete_for L body → complete_for (lang_n L lo) (rep_req body lo).
Proof.
  intros Hb. induction lo as [|lo IH]; intros k p w a; simpl.
  - intros -> Hk. by rewrite last_char_nil in Hk.
  - intros (w1 & w2 & -> & HL & Hn) Hk. rewrite <-app_assoc.
    apply Hb; [done|]. apply IH; [done|]. by rewrite last_char_app in Hk.
Qed.

Lemma re_match_complete ic r : complete_for (lang ic r) (re_match ic r).
Proof.
  induction r as [|c|items| |r1 IH1 r2 IH2|r1 IH1 r2 IH2|lo hi r IH];
    intros k p w a; simpl.
  - intros -> Hk. by rewrite last_char_nil in Hk.
  - apply (eat_complete (Char.eqb ic c)).
  - apply (eat_complete (class_match ic items)).
  - intros [-> Hb] Hk. simpl. rewrite Hb. by rewrite last_char_nil in Hk.
  - intros (w1 & w2 & -> & H1 & H2) Hk. rewrite <-app_assoc.
    apply IH1; [done|]. apply IH2; [done|]. by rewrite last_char_app in Hk.
  - intros [H1|H2] Hk.
    + destruct (IH1 k p w a H1 Hk) as [e ->]. by eexists.
    + destruct (re_match ic r1 k (p, w ++ a)); [by eexists|]. by apply IH2.
  - intros (n & Hlo & Hhi & Hn) Hk.
    replace n with (lo + (n - lo)) in Hn by lia.
    apply lang_n_split in Hn as (w1 & w2 & -> & H1 & H2).
    rewrite <-app_assoc.
    apply (rep_req_complete (lang ic r)); [done|done|]. simpl.
    apply lang_n_compress in H2 as (m & Hm & Hlen & H2).
    apply (rep_opt_complete (lang ic r) _ _ m); [done|done| |].
    + destruct hi as [h|]; [lia|]. rewrite length_app. lia.
    + by rewrite last_char_app in Hk.
Qed.

Lemma match_at_complete ic r p w a :
  lang ic r p w a → is_Some (match_at ic r false (p, w ++ a)).
Proof.
  intros HL. unfold match_at.
  destruct (re_match_complete ic r (accept false (p, w ++ a)) p w a HL)
    as [e ->]; by eexists.
Qed.

(** A match at the start of the page is the first that [finditer]
    reports. *)
Lemma finditer_first ic r t :
  is_Some (match_at ic r false (None, t)) →
  ∃ n, (0, take n t) ∈ finditer r t ic.
Proof.
  intros [n Hn]. unfold finditer.
  destruct t as [|x xs]; cbn [finditer_go]; rewrite Hn.
  - destruct n; [exists 0|exists (S n)]; by left.
  - destruct n; [exists 0|exists (S n)]; by left.
Qed.

(** A date that fills its page is a candidate of the category. *)
Lemma dob_candidate self t :
  enabled self "dob" = true → dob_format t → bounded [] t [] →
  ∃ n, Detection (take n t) "DOB" 0 None ∈ candidates self t.
Proof.
  intros Hon Hfmt [Hb1 Hb2]. simpl in Hb1, Hb2.
  assert (∃ p, p ∈ DATE_OF_BIRTH_PATTERNS ∧ lang true p None t [])
    as (p & Hp & HL).
  { destruct Hfmt as [Hf|[Hf|Hf]].
    - exists DOB_MDY. split; [by left|]. by apply lang_DOB_MDY.
    - exists DOB_YMD. split; [by right; left|]. by apply lang_DOB_YMD.
    - exists DOB_MONTH. split; [by right; right; left|].
      by apply lang_DOB_MONTH. }
  apply match_at_complete in HL. rewrite app_nil_r in HL.
  apply (finditer_first true p t) in HL as [n Hn]. exists n.
  unfold candidates. rewrite !elem_of_app. do 5 right. left.
  unfold category. rewrite Hon. apply list_elem_of_bind. exists p.
  split; [|done]. unfold hits. apply list_elem_of_fmap.
  by exists (0, take n t).
Qed.

Lemma candidate_is_reported self text d :
  d ∈ candidates self text →
  ∃ d', d' ∈ find_pii self text ∧ dedup_key d' = dedup_key d.
Proof.
  intros Hd. unfold find_pii.
  destruct (first_in_exists (sorted d_start (candidates self text)) d)
    as (d' & Hfirst & Hkey); [by rewrite sorted_perm|].
  exists d'. split; [|done]. apply unique_from_first. split; [|done].
  apply not_elem_of_empty.
Qed.

Lemma dob_candidates self text d :
  d ∈ candidates self text → d_type d = "DOB" →
  ∃ p, p ∈ DATE_OF_BIRTH_PATTERNS ∧ d ∈ hits "DOB" true text p.
Proof.
  unfold candidates. intros Hd Hty.
  repeat (apply elem_of_app in Hd as [Hd|Hd];
          [try (apply category_type in Hd; congruence)|]).
  - unfold category in Hd. destruct (enabled self "dob"); [|by apply elem_of_nil in Hd].
    apply list_elem_of_bind in Hd as (p & Hd & Hp). eauto.
  - destruct (enabled self "names"); [|by apply elem_of_nil in Hd].
    apply list_elem_of_bind in Hd as (n & Hd%hits_type & _). congruence.
  - unfold custom_hits in Hd.
    apply list_elem_of_bind in Hd as (n & Hd%hits_type & _). congruence.
Qed.

Lemma dob_format_contains_year t : dob_format t → contains_year t.
Proof.
  intros [(m & s1 & d & s2 & y & -> & _ & _ & _ & _ & Hy)
         |[(y & s1 & m & s2 & d & -> & Hy & _)
          |(mon & letters & dot & sp1 & day & comma & sp2 & y & -> & Hrest)]].
  - exists (m ++ s1 ++ d ++ s2), y, []. by rewrite app_nil_r, <-!app_assoc.
  - by exists [], y, (s1 ++ m ++ s2 ++ d).
  - destruct Hrest as (_ & _ & _ & _ & _ & _ & _ & Hy).
    exists (mon ++ letters ++ dot ++ sp1 ++ day ++ comma ++ sp2), y, [].
    by rewrite app_nil_r, <-!app_assoc.
Qed.

(** C9, as the code has it.  A detection of the date-of-birth category is
    a date of one of three formats that stands in its page between two word
    boundaries: month, day and year in digits, or year, month and day in
    digits, with a hyphen or a slash as either separator, a month of 1 to
    12 and a day of 1 to 31 with or without a leading zero; or an English
    month name in any letter case, cut after three letters or followed by
    further letters, an optional full stop, blanks, a day of one or two
    digits, an optional comma, blanks and the year.  The year has four
    digits and opens with 19 or 20, so the detection contains a year 19xx
    or 20xx.  Conversely, a date of one of the three formats that fills a
    page between word boundaries is a candidate of the category at offset
    0, and a detection with its start and text is returned. *)
Theorem dob_detections_are_dates :
  (∀ (self : WorkerThread) (text : str) (d : detection),
     d ∈ find_pii self text → d_type d = "DOB" →
     ∃ before after,
       text = before ++ d_text d ++ after
       ∧ length before = d_start d
       ∧ dob_format (d_text d)
       ∧ bounded before (d_text d) after
       ∧ contains_year (d_text d))
  ∧ (∀ (self : WorkerThread) (t : str),
       enabled self "dob" = true → dob_format t → bounded [] t [] →
       ∃ d, d ∈ candidates self t ∧ d_type d = "DOB" ∧ d_start d = 0
            ∧ dob_format (d_text d)
            ∧ ∃ d', d' ∈ find_pii self t ∧ dedup_key d' = dedup_key d).
Proof.
  assert (∀ self text d, d ∈ candidates self text → d_type d = "DOB" →
            ∃ before after,
              text = before ++ d_text d ++ after
              ∧ length before = d_start d
              ∧ dob_format (d_text d)
              ∧ bounded before (d_text d) after) as Hshape.
  { intros self text d Hd Hty.
    destruct (dob_candidates _ _ _ Hd Hty) as (p & Hp & Hhit).
    apply hits_sound in Hhit as (before & after & Htext & Hlen & HL).
    exists before, after. split; [done|]. split; [done|].
    unfold bounded, dob_format, DATE_OF_BIRTH_PATTERNS in *.
    apply elem_of_cons in Hp as [->|Hp];
      [apply lang_DOB_MDY in HL as (? & ? & ?); auto|].
    apply elem_of_cons in Hp as [->|Hp];
      [apply lang_DOB_YMD in HL as (? & ? & ?); auto|].
    apply elem_of_cons in Hp as [->|Hp];
      [apply lang_DOB_MONTH in HL as (? & ? & ?); auto|].
    by apply elem_of_nil in Hp. }
  split.
  - intros self text d Hd%find_pii_candidates Hty.
    destruct (Hshape self text d Hd Hty)
      as (before & after & Htext & Hlen & Hfmt & Hb).
    exists before, after. split_and!; try done.
    by apply dob_format_contains_year.
  - intros self t Hon Hfmt Hb.
    destruct (dob_candidate self t Hon Hfmt Hb) as [n Hn].
    exists (Detection (take n t) "DOB" 0 None). split; [done|].
    split; [done|]. split; [done|].
    split; [|by apply candidate_is_reported].
    by destruct (Hshape self t _ Hn eq_refl) as (? & ? & _ & _ & ? & _).
Qed.

(** ** What a statement adds to the state *)

Lemma append_assoc {A} (s1 s2 s3 : list A) :
  (s1 ++ s2) ++ s3 = s1 ++ s2 ++ s3.
Proof. by rewrite <-app_assoc. Qed.

Lemma apply_effect_nil st : apply_effect eff_nil st = st.
Proof.
  destruct st as [[d o s p] t]. unfold apply_effect. simpl.
  by rewrite !app_nil_r.
Qed.

Lemma apply_effect_app a b st :
  apply_effect (eff_app a b) st = apply_effect b (apply_effect a st).
Proof.
  unfold apply_effect, eff_app. simpl.
  by rewrite !append_assoc, !foldl_app.
Qed.

(** Running a statement adds its effect to the state, whatever the state. *)
Lemma exec_summary {A} (p : prog A) (st : state) :
  exec p st = (apply_effect (summary p).1 st, (summary p).2).
Proof.
  revert st. induction p as [A x|A B p IHp k IHk|A r|A body IHb handler IHh
                            |s|s|ty|file l|ev]; intros st; simpl.
  - by rewrite apply_effect_nil.
  - rewrite IHp. destruct (summary p) as [δ [e|x]]; simpl; [done|].
    by rewrite IHk, apply_effect_app.
  - by rewrite apply_effect_nil.
  - rewrite IHb. destruct (summary body) as [δ [e|x]]; simpl; [|done].
    by rewrite IHh, apply_effect_app.
  - destruct st as [[d o s' p] t]. unfold update, apply_effect. simpl.
    by rewrite !app_nil_r.
  - destruct st as [[d o s' p] t]. unfold update, apply_effect. simpl.
    by rewrite !app_nil_r.
  - destruct st as [[d o s' p] t]. unfold update, apply_effect. simpl.
    by rewrite !app_nil_r.
  - destruct st as [[d o s' p] t]. unfold update, apply_effect. simpl.
    by rewrite !app_nil_r.
  - destruct st as [[d o s' p] t]. unfold apply_effect. simpl.
    by rewrite !app_nil_r.
Qed.

Lemma effect_eq a b :
  e_detected a = e_detected b → e_output a = e_output b →
  e_bumps a = e_bumps b → e_previews a = e_previews b →
  e_trace a = e_trace b → a = b.
Proof. destruct a, b. simpl. by intros -> -> -> -> ->. Qed.

Lemma eff_app_nil_l a : eff_app eff_nil a = a.
Proof. by destruct a. Qed.

Lemma eff_app_nil_r a : eff_app a eff_nil = a.
Proof.
  destruct a. unfold eff_app. simpl. by rewrite !app_nil_r.
Qed.

Lemma eff_app_assoc a b c : eff_app (eff_app a b) c = eff_app a (eff_app b c).
Proof.
  unfold eff_app. simpl. by rewrite <-!app_assoc.
Qed.

Lemma summary_bind {A B} (p : prog A) (k : A → prog B) :
  summary (p ≫= k)
  = match summary p with
    | (δ, inr x) => (eff_app δ (summary (k x)).1, (summary (k x)).2)
    | (δ, inl e) => (δ, inl e)
    end.
Proof. done. Qed.

(** A loop whose rounds never raise. *)
Lemma summary_for {A} (l : list A) (body : A → prog unit) (δ : A → effect) :
  (∀ x, summary (body x) = (δ x, inr tt)) →
  summary (for_ l body) = (eff_concat (δ <$> l), inr tt).
Proof.
  intros Hbody. induction l as [|x xs IH]; [done|].
  cbn [for_]. rewrite summary_bind, Hbody, IH. done.
Qed.

Lemma summary_collect {A B} (l : list A) (body : A → prog B)
    (δ : A → effect) (f : A → B) :
  (∀ x, summary (body x) = (δ x, inr (f x))) →
  summary (collect l body) = (eff_concat (δ <$> l), inr (f <$> l)).
Proof.
  intros Hbody. induction l as [|x xs IH]; [done|].
  cbn [collect]. rewrite summary_bind, Hbody, summary_bind, IH. simpl.
  by rewrite eff_app_nil_r.
Qed.

Lemma eff_concat_did {A} (f : A → list event) (l : list A) :
  eff_concat ((λ x, did (f x)) <$> l) = did (l ≫= f).
Proof.
  induction l as [|x xs IH]; [done|].
  change (eff_app (did (f x)) (eff_concat ((λ x, did (f x)) <$> xs))
          = did (f x ++ (xs ≫= f))).
  by rewrite IH.
Qed.

Lemma eff_concat_counted {A} (f : A → list string) (l : list A) :
  eff_concat ((λ x, counted (f x)) <$> l) = counted (l ≫= f).
Proof.
  induction l as [|x xs IH]; [done|].
  change (eff_app (counted (f x)) (eff_concat ((λ x, counted (f x)) <$> xs))
          = counted (f x ++ (xs ≫= f))).
  by rewrite IH.
Qed.

Lemma bind_singleton {A B} (f : A → B) (l : list A) :
  l ≫= (λ x, [f x]) = f <$> l.
Proof.
  induction l as [|x xs IH]; [done|].
  by rewrite bind_cons, fmap_cons, IH.
Qed.

(** ** The detection pass over a document *)

Lemma summary_scan_page self pp :
  summary (scan_page self pp)
  = (counted (d_type <$> find_pii self (get_text pp.2)),
     inr (with_page (pp.1 + 1) <$> find_pii self (get_text pp.2))).
Proof.
  unfold scan_page.
  rewrite (summary_collect _ _ (λ d, counted [d_type d]) (with_page (pp.1 + 1)))
    by done.
  f_equal. rewrite (eff_concat_counted (λ d, [d_type d])).
  by rewrite bind_singleton.
Qed.

Lemma summary_scan_doc self doc :
  summary (scan_doc self doc)
  = (counted (d_type <$> fresh_detections self doc),
     inr (fresh_detections self doc)).
Proof.
  unfold scan_doc. rewrite summary_bind.
  rewrite (summary_collect _ _
             (λ pp, counted (d_type <$> find_pii self (get_text pp.2)))
             (λ pp, with_page (pp.1 + 1) <$> find_pii self (get_text pp.2)))
    by apply summary_scan_page.
  simpl. rewrite eff_app_nil_r, eff_concat_counted.
  unfold fresh_detections. f_equal.
  - f_equal. induction (enumerate doc) as [|pp pps IH]; [done|].
    rewrite !bind_cons, fmap_app, IH. f_equal.
    rewrite <-list_fmap_compose. by apply list_fmap_ext.
  - f_equal. induction (enumerate doc) as [|pp pps IH]; [done|].
    by rewrite fmap_cons, bind_cons, <-IH.
Qed.

(** ** The outcome of one document *)

Lemma summary_then (p q : prog unit) :
  summary (p ;; q) = then_ (summary p) (summary q).
Proof.
  change (p ;; q) with (bind p (λ _, q)). simpl. unfold then_.
  by destruct (summary p) as [δ [e|[]]].
Qed.

Lemma eff_concat_said {A} (f : A → str) (l : list A) :
  eff_concat ((λ x, said (f x)) <$> l) = said (glue (f <$> l)).
Proof.
  induction l as [|x xs IH]; [done|].
  change (eff_app (said (f x)) (eff_concat ((λ x, said (f x)) <$> xs))
          = said (f x ++ glue (f <$> xs))).
  by rewrite IH.
Qed.

(** A loop that renders one line per detection and hands it on. *)
Lemma summary_lines (f : str → prog unit) (δ : str → effect) dets :
  (∀ line, summary (f line) = (δ line, inr tt)) →
  summary (for_ dets (λ d, line ← lift (item_line d); f line))
  = (eff_concat (δ <$> (written_lines dets).1), raised (written_lines dets).2).
Proof.
  intros Hf. induction dets as [|d ds IH]; [done|].
  cbn [for_ written_lines]. rewrite summary_then, IH.
  change (summary (line ← lift (item_line d); f line))
    with (summary (bind (lift (item_line d)) f)).
  cbn [summary]. destruct (item_line d) as [e|line]; [done|].
  rewrite Hf. unfold then_. simpl. by rewrite eff_app_nil_l.
Qed.

Lemma summary_redact_page self file dets pp :
  summary (redact_page self file dets pp)
  = (did (page_events self file dets pp), inr tt).
Proof.
  unfold redact_page, page_events. rewrite summary_then.
  rewrite (summary_for _ _
             (λ d, did (redact_annot self file pp.1 d <$> search_for pp.2 (d_text d)))).
  - rewrite eff_concat_did. done.
  - intros d.
    rewrite (summary_for _ _ (λ inst, did [redact_annot self file pp.1 d inst]))
      by done.
    by rewrite (eff_concat_did (λ inst, [redact_annot self file pp.1 d inst])),
      bind_singleton.
Qed.

Lemma summary_write_report W report_path filename dets :
  summary (write_report W report_path filename dets)
  = report_outcome W report_path filename dets.
Proof.
  unfold write_report, report_outcome.
  destruct (open_report W report_path) as [e|]; [done|].
  rewrite !summary_then.
  rewrite (summary_lines _ (λ line, did [EvWrite report_path line])) by done.
  rewrite (eff_concat_did (λ line, [EvWrite report_path line])), bind_singleton.
  done.
Qed.

Lemma summary_redact_doc W self dir filepath filename doc fresh :
  summary (redact_doc W self dir filepath filename doc fresh)
  = redact_outcome W self dir filepath filename doc fresh.
Proof.
  unfold redact_doc, redact_outcome, planned. cbv zeta.
  rewrite summary_then.
  rewrite (summary_for _ _ (λ pp, did (page_events self filepath
             (default fresh (preview_data self !! filepath)) pp)))
    by apply summary_redact_page.
  rewrite eff_concat_did. f_equal.
  destruct (doc_save W _) as [e|]; [done|].
  by rewrite !summary_then, summary_write_report.
Qed.

Lemma summary_attempt W self filepath filename :
  summary (attempt W self filepath filename)
  = attempt_outcome W self filepath filename.
Proof.
  unfold attempt, attempt_outcome. rewrite summary_bind. cbn [summary].
  destruct (fitz_open W filepath) as [e|doc]; [done|].
  rewrite eff_app_nil_l, summary_bind, summary_scan_doc. cbv zeta.
  set (fresh := fresh_detections self doc).
  rewrite !summary_then.
  assert (summary (match fresh with
                   | [] => say_detected (u "  No PII detected." ++ nl)
                   | _ :: _ => for_ fresh (λ d,
                       line ← lift (item_line d); say_detected (u "  " ++ line))
                   end)
          = (said (listing fresh), raised (written_lines fresh).2)) as ->.
  { destruct fresh as [|d ds] eqn:Hfresh; [done|]. rewrite <-Hfresh.
    rewrite (summary_lines _ (λ line, said (u "  " ++ line))) by done.
    rewrite (eff_concat_said (λ line, u "  " ++ line)).
    unfold listing. by rewrite Hfresh. }
  assert (summary (match output_dir self with
                   | Some dir => redact_doc W self dir filepath filename doc fresh
                   | None => ret tt
                   end)
          = match output_dir self with
            | None => (eff_nil, inr tt)
            | Some dir => redact_outcome W self dir filepath filename doc fresh
            end) as ->.
  { destruct (output_dir self); [apply summary_redact_doc|done]. }
  unfold then_ at 1. simpl. by destruct (then_ _ _) as [? [?|[]]].
Qed.

Lemma summary_process_file W self filepath :
  summary (process_file W self filepath) = (file_effect W self filepath, inr tt).
Proof.
  unfold process_file, file_effect. cbv zeta.
  rewrite !summary_then. cbn [summary]. rewrite summary_attempt.
  destruct (attempt_outcome W self filepath (basename W filepath)) as [δ [e|[]]].
  - rewrite summary_bind. cbn [summary]. unfold then_, handler_effect.
    destruct (is_preview self); cbn [fst snd summary];
      by rewrite ?eff_app_assoc, ?eff_app_nil_r.
  - unfold then_. cbn [fst snd]. by rewrite eff_app_nil_l.
Qed.

Lemma run_summary W self :
  run W self
  = (apply_effect (eff_concat (file_effect W self <$> files self)) init_state,
     inr tt).
Proof.
  unfold run. rewrite exec_summary.
  by rewrite (summary_for _ _ (file_effect W self))
    by apply summary_process_file.
Qed.

Lemma e_detected_concat l :
  e_detected (eff_concat l) = glue (e_detected <$> l).
Proof. induction l as [|a l IH]; [done|]. simpl. by rewrite IH. Qed.

Lemma e_output_concat l : e_output (eff_concat l) = glue (e_output <$> l).
Proof. induction l as [|a l IH]; [done|]. simpl. by rewrite IH. Qed.


Lemma e_previews_concat l : e_previews (eff_concat l) = concat (e_previews <$> l).
Proof. induction l as [|a l IH]; [done|]. simpl. by rewrite IH. Qed.


Lemma run_alone W self filepath :
  run W (alone filepath self)
  = (apply_effect (file_effect W self filepath) init_state, inr tt).
Proof.
  rewrite run_summary. simpl. by rewrite eff_app_nil_r.
Qed.

(** ** Errors stay with their document *)

(** Nothing is written to the output log by a document that fails; a
    document that is redacted adds its line. *)
Lemma attempt_output W self filepath :
  e_output (attempt_outcome W self filepath (basename W filepath)).1
  = match (attempt_outcome W self filepath (basename W filepath)).2,
          output_dir self with
    | inr _, Some dir => success_line W dir filepath
    | _, _ => []
    end.
Proof.
  unfold attempt_outcome, redact_outcome, report_outcome, success_line.
  destruct (fitz_open W filepath) as [e|doc]; [done|]. cbv zeta.
  unfold then_. cbn [fst snd].
  destruct (written_lines (fresh_detections self doc)).2; [by destruct (output_dir self)|].
  cbn [raised fst snd].
  destruct (output_dir self) as [dir|]; [|done]. cbn [fst snd].
  destruct (doc_save W _); [done|]. cbn [fst snd].
  destruct (open_report W _); [done|]. cbn [fst snd].
  destruct (written_lines (planned _ _ _)).2;
    cbn [e_output eff_app counted cached said did wrote eff_nil fst snd raised];
    by rewrite ?app_nil_l, ?app_nil_r.
Qed.

(** C7. A run always completes; the two logs are the concatenation of what
    each document adds when it is processed alone; a document whose
    processing raises adds, after its header, the error line to the
    detected log and, in a redact run, its failure line to the output log;
    a document that is processed without error adds its findings and, in a
    redact run, its success line.  So no failure changes what the run
    reports for the other documents. *)
Theorem error_isolation (W : World) (self : WorkerThread) :
  (run W self).2 = inr tt
  ∧ detected (res (run W self).1)
    = glue ((λ f, detected (res (run W (alone f self)).1)) <$> files self)
  ∧ output (res (run W self).1)
    = glue ((λ f, output (res (run W (alone f self)).1)) <$> files self)
  ∧ (∀ f e st,
       (exec (attempt W self f (basename W f)) st).2 = inl e →
       (∃ shown, detected (res (run W (alone f self)).1)
                 = header (basename W f) ++ shown
                   ++ u "  ERROR: " ++ e ++ nl ++ nl)
       ∧ output (res (run W (alone f self)).1)
         = if is_preview self then [] else failure_line W f e)
  ∧ (∀ f st,
       (exec (attempt W self f (basename W f)) st).2 = inr tt →
       (∃ shown, detected (res (run W (alone f self)).1)
                 = header (basename W f) ++ shown ++ nl)
       ∧ output (res (run W (alone f self)).1)
         = match output_dir self with
           | Some dir => success_line W dir f
           | None => []
           end).
Proof.
  split_and!.
  - by rewrite run_summary.
  - rewrite run_summary. cbn [fst apply_effect res detected init_state].
    rewrite app_nil_l, e_detected_concat, <-list_fmap_compose.
    f_equal. apply list_fmap_ext. intros i f _. simpl.
    by rewrite run_alone.
  - rewrite run_summary. cbn [fst apply_effect res output init_state].
    rewrite app_nil_l, e_output_concat, <-list_fmap_compose.
    f_equal. apply list_fmap_ext. intros i f _. simpl.
    by rewrite run_alone.
  - intros f e st. rewrite exec_summary, summary_attempt, run_alone.
    cbn [fst snd apply_effect res detected output init_state].
    intros Hraise. rewrite !app_nil_l. unfold file_effect. cbv zeta.
    pose proof (attempt_output W self f) as Hout. rewrite Hraise in *.
    cbn [e_detected e_output eff_app did said]. rewrite Hout.
    unfold handler_effect. split.
    + exists (e_detected (attempt_outcome W self f (basename W f)).1).
      destruct (is_preview self); cbn [e_detected eff_app said wrote eff_nil];
        by rewrite ?app_nil_r, ?append_assoc.
    + destruct (is_preview self); cbn [e_output eff_app said wrote eff_nil];
        by rewrite ?app_nil_r.
  - intros f st. rewrite exec_summary, summary_attempt, run_alone.
    cbn [fst snd apply_effect res detected output init_state].
    intros Hok. rewrite !app_nil_l. unfold file_effect. cbv zeta.
    pose proof (attempt_output W self f) as Hout. rewrite Hok in *.
    cbn [e_detected e_output eff_app did said eff_nil]. rewrite Hout. split.
    + exists (e_detected (attempt_outcome W self f (basename W f)).1).
      by rewrite ?app_nil_r, ?append_assoc.
    + by destruct (output_dir self); rewrite ?app_nil_r.
Qed.

(** ** Counts, cache and report *)

Lemma fresh_written self doc : (written_lines (fresh_detections self doc)).2 = None.
Proof.
  unfold fresh_detections.
  assert (∀ l, Forall (λ d, is_Some (d_page d)) l → (written_lines l).2 = None)
    as Hall.
  { induction 1 as [|d ds [n Hn] _ IH]; [done|].
    simpl. unfold item_line, page_of. by rewrite Hn. }
  apply Hall, Forall_forall.
  intros d (pp & (d0 & -> & _)%list_elem_of_fmap & _)%list_elem_of_bind.
  by eexists.
Qed.

Lemma attempt_trace_redact W self dir filepath doc :
  fitz_open W filepath = inr doc →
  output_dir self = Some dir →
  e_trace (attempt_outcome W self filepath (basename W filepath)).1
  = redact_trace W self dir filepath doc.
Proof.
  intros Hopen Hdir.
  unfold attempt_outcome, redact_outcome, report_outcome, redact_trace.
  rewrite Hopen, Hdir, fresh_written. cbv zeta. unfold then_. cbn [fst snd raised].
  destruct (doc_save W _);
    [cbn [e_trace eff_app counted cached said did wrote eff_nil fst snd];
     by rewrite ?app_nil_r|].
  cbn [fst snd].
  destruct (open_report W _);
    [cbn [e_trace eff_app counted cached said did wrote eff_nil fst snd];
     by rewrite ?app_nil_r|].
  cbn [fst snd].
  destruct (written_lines (planned _ _ _)).2;
    cbn [e_trace eff_app counted cached said did wrote eff_nil fst snd raised];
    rewrite ?app_nil_r, ?app_nil_l; simpl; by rewrite <-?app_assoc.
Qed.


Lemma attempt_previews W self filepath :
  e_previews (attempt_outcome W self filepath (basename W filepath)).1
  = match fitz_open W filepath with
    | inr doc => [(filepath, fresh_detections self doc)]
    | inl _ => []
    end.
Proof.
  unfold attempt_outcome, redact_outcome, report_outcome.
  destruct (fitz_open W filepath) as [e|doc]; [done|].
  rewrite fresh_written. cbv zeta. unfold then_. cbn [fst snd raised].
  destruct (output_dir self) as [dir|]; cbn [fst snd];
    [|cbn [e_previews eff_app counted cached said did wrote eff_nil fst snd];
      by rewrite ?app_nil_r].
  destruct (doc_save W _);
    [cbn [e_previews eff_app counted cached said did wrote eff_nil fst snd];
     by rewrite ?app_nil_r|].
  cbn [fst snd].
  destruct (open_report W _);
    [cbn [e_previews eff_app counted cached said did wrote eff_nil fst snd];
     by rewrite ?app_nil_r|].
  cbn [fst snd].
  destruct (written_lines (planned _ _ _)).2;
    cbn [e_previews eff_app counted cached said did wrote eff_nil fst snd raised];
    by rewrite ?app_nil_r.
Qed.


Lemma file_previews W self filepath :
  e_previews (file_effect W self filepath)
  = match fitz_open W filepath with
    | inr doc => [(filepath, fresh_detections self doc)]
    | inl _ => []
    end.
Proof.
  unfold file_effect. cbv zeta. cbn [e_previews eff_app did said].
  rewrite attempt_previews.
  destruct (attempt_outcome _ _ _ _).2; unfold handler_effect;
    [destruct (is_preview self)|]; simpl; by rewrite ?app_nil_r.
Qed.

Lemma file_trace W self filepath :
  e_trace (file_effect W self filepath)
  = EvProgress (u "Processing: " ++ basename W filepath)
    :: e_trace (attempt_outcome W self filepath (basename W filepath)).1.
Proof.
  unfold file_effect. cbv zeta. cbn [e_trace eff_app did said].
  destruct (attempt_outcome _ _ _ _).2; unfold handler_effect;
    [destruct (is_preview self)|]; simpl; by rewrite ?app_nil_r.
Qed.




(** ** Preview and redact *)

Lemma annots_on_app file p t1 t2 :
  annots_on file p (t1 ++ t2) = annots_on file p t1 ++ annots_on file p t2.
Proof. apply filter_app. Qed.

Lemma annots_on_marks self file p i page dets :
  annots_on file p (marks self file i page dets)
  = if decide (i = p) then marks self file i page dets else [].
Proof.
  unfold annots_on. case_decide as Hi.
  - subst i. apply filter_all, Forall_forall.
    intros ev (d & (inst & -> & _)%list_elem_of_fmap & _)%list_elem_of_bind.
    unfold redact_annot. case_match; simpl; by rewrite bool_decide_true.
  - apply filter_none, Forall_forall.
    intros ev (d & (inst & -> & _)%list_elem_of_fmap & _)%list_elem_of_bind.
    unfold redact_annot. case_match; simpl; rewrite bool_decide_false; naive_solver.
Qed.

Lemma annots_on_page_events self file p dets pp :
  annots_on file p (page_events self file dets pp)
  = if decide (pp.1 = p) then marks self file pp.1 pp.2 (page_dets dets pp.1)
    else [].
Proof.
  unfold page_events. fold (marks self file pp.1 pp.2 (page_dets dets pp.1)).
  rewrite annots_on_app, annots_on_marks.
  unfold annots_on at 1. rewrite filter_cons_False, filter_nil by (simpl; tauto).
  by rewrite app_nil_r.
Qed.

Lemma annots_on_pages self file p dets (doc : list Page) k :
  annots_on file p
    (imap (λ i page, (k + i, page)) doc ≫= page_events self file dets)
  = match doc !! (p - k) with
    | Some page => if decide (k ≤ p) then marks self file p page (page_dets dets p)
                   else []
    | None => []
    end.
Proof.
  revert k. induction doc as [|page doc IH]; intros k; [done|].
  rewrite imap_cons, bind_cons, annots_on_app, annots_on_page_events.
  rewrite (imap_ext _ (λ i page, (S k + i, page))) by (intros; f_equal/=; lia).
  rewrite IH. simpl. rewrite Nat.add_0_r.
  destruct (decide (k = p)) as [->|Hne].
  - rewrite Nat.sub_diag. simpl. rewrite decide_True by lia.
    replace (p - S p) with 0 by lia.
    destruct (doc !! 0); [rewrite decide_False by lia|]; by rewrite app_nil_r.
  - destruct (decide (k ≤ p)) as [Hle|Hgt].
    + replace (p - k) with (S (p - S k)) by lia. simpl.
      destruct (doc !! (p - S k)); [|done].
      by rewrite decide_True by lia.
    + simpl. destruct (doc !! (p - S k)); [rewrite decide_False by lia|];
        by destruct ((page :: doc) !! (p - k)).
Qed.

(** Of the calls of the redact branch, the marks on a page are those of the
    planned detections of that page. *)
Lemma annots_on_redact_trace W self dir file doc p page :
  doc !! p = Some page →
  annots_on file p (redact_trace W self dir file doc)
  = marks self file p page
      (page_dets (planned self file (fresh_detections self doc)) p).
Proof.
  intros Hpage. unfold redact_trace. cbv zeta. rewrite annots_on_app.
  unfold enumerate.
  rewrite (imap_ext _ (λ i page, (0 + i, page))) by done.
  rewrite annots_on_pages, Nat.sub_0_r, Hpage, decide_True by lia.
  rewrite <-(app_nil_r (marks _ _ _ _ _)) at 2. f_equal.
  apply filter_none, Forall_forall. intros ev Hev.
  destruct (doc_save W _); [by apply elem_of_nil in Hev|].
  apply elem_of_cons in Hev as [->|Hev]; [simpl; tauto|].
  destruct (open_report W _); [by apply elem_of_nil in Hev|].
  rewrite !elem_of_app, !elem_of_cons in Hev.
  destruct Hev as [[->|[->|[->|[->|Hev]]]]|[Hev|Hev]]; try (simpl; tauto).
  - by apply elem_of_nil in Hev.
  - apply list_elem_of_fmap in Hev as (line & -> & _). simpl. tauto.
  - destruct (written_lines _).2; [by apply elem_of_nil in Hev|].
    apply list_elem_of_singleton in Hev as ->. simpl. tauto.
Qed.

Lemma foldl_store_lookup l m f v :
  (∀ v', (f, v') ∈ l → v' = v) → (∃ v', (f, v') ∈ l) →
  foldl store m l !! f = Some v.
Proof.
  induction l as [|[g w] l IH] using rev_ind; intros Hsame [v' Hin].
  - by apply elem_of_nil in Hin.
  - rewrite foldl_app. simpl. unfold store at 1. simpl.
    destruct (decide (g = f)) as [->|Hne].
    + rewrite lookup_insert_eq. f_equal. apply Hsame.
      rewrite elem_of_app. right. by left.
    + rewrite lookup_insert_ne by done. apply IH.
      * intros v'' Hv''. apply Hsame. rewrite elem_of_app. by left.
      * apply elem_of_app in Hin as [Hin|Hin]; [eauto|].
        apply list_elem_of_singleton in Hin. congruence.
Qed.

Lemma elem_of_concat {A} (x : A) (ls : list (list A)) :
  x ∈ concat ls ↔ ∃ l, x ∈ l ∧ l ∈ ls.
Proof.
  induction ls as [|l ls IH]; simpl.
  - split; [by intros ?%elem_of_nil|]. by intros (l & _ & ?%elem_of_nil).
  - rewrite elem_of_app, IH. split.
    + intros [Hx|(l' & Hx & Hl')]; [exists l|exists l']; split; try done;
        [by left|by right].
    + intros (l' & Hx & [->|Hl']%elem_of_cons); [by left|right; eauto].
Qed.

(** A run stores the fresh detections of every document that opens. *)
Lemma run_preview_data W self f doc :
  f ∈ files self → fitz_open W f = inr doc →
  res_preview_data (res (run W self).1) !! f = Some (fresh_detections self doc).
Proof.
  intros Hf Hopen. rewrite run_summary.
  cbn [fst apply_effect res res_preview_data init_state].
  rewrite e_previews_concat, <-list_fmap_compose.
  apply foldl_store_lookup.
  - intros v' (l & Hin & (g & -> & Hg)%list_elem_of_fmap)%elem_of_concat.
    unfold compose in Hin. rewrite file_previews in Hin.
    destruct (fitz_open W g) as [e|doc'] eqn:Hg'; [by apply elem_of_nil in Hin|].
    apply list_elem_of_singleton in Hin as [= -> ->]. congruence.
  - exists (fresh_detections self doc). apply elem_of_concat.
    exists (e_previews (file_effect W self f)). split.
    + rewrite file_previews, Hopen. by left.
    + apply list_elem_of_fmap. by exists f.
Qed.

Lemma page_dets_scanned p i (found : list detection) :
  page_dets (with_page (i + 1) <$> found) p
  = if decide (i = p) then with_page (i + 1) <$> found else [].
Proof.
  unfold page_dets. case_decide as Hi.
  - subst i. apply filter_all, Forall_forall.
    by intros d (d0 & -> & _)%list_elem_of_fmap.
  - apply filter_none, Forall_forall.
    intros d (d0 & -> & _)%list_elem_of_fmap. simpl. intros [= ?]. lia.
Qed.

Lemma page_dets_pages self p (doc : list Page) k :
  page_dets (imap (λ i page, (k + i, page)) doc
             ≫= (λ pp, with_page (pp.1 + 1) <$> find_pii self (get_text pp.2))) p
  = match doc !! (p - k) with
    | Some page => if decide (k ≤ p)
                   then with_page (p + 1) <$> find_pii self (get_text page)
                   else []
    | None => []
    end.
Proof.
  revert k. induction doc as [|page doc IH]; intros k; [done|].
  rewrite imap_cons, bind_cons. unfold page_dets at 1. rewrite filter_app.
  fold (page_dets (with_page ((k + 0, page).1 + 1) <$>
                     find_pii self (get_text (k + 0, page).2)) p).
  rewrite page_dets_scanned.
  rewrite (imap_ext _ (λ i page, (S k + i, page))) by (intros; f_equal/=; lia).
  fold (page_dets (imap (λ i page, (S k + i, page)) doc
                   ≫= (λ pp, with_page (pp.1 + 1) <$> find_pii self (get_text pp.2))) p).
  rewrite IH. simpl. rewrite Nat.add_0_r.
  destruct (decide (k = p)) as [->|Hne].
  - rewrite Nat.sub_diag. simpl. rewrite decide_True by lia.
    replace (p - S p) with 0 by lia.
    destruct (doc !! 0); [rewrite decide_False by lia|]; by rewrite app_nil_r.
  - destruct (decide (k ≤ p)) as [Hle|Hgt].
    + replace (p - k) with (S (p - S k)) by lia. simpl.
      destruct (doc !! (p - S k)); [|done].
      by rewrite decide_True by lia.
    + simpl. destruct (doc !! (p - S k)); [rewrite decide_False by lia|];
        by destruct ((page :: doc) !! (p - k)).
Qed.

(** The fresh detections of a page are what [find_pii] returns on its text. *)
Lemma page_dets_fresh self doc p page :
  doc !! p = Some page →
  page_dets (fresh_detections self doc) p
  = with_page (p + 1) <$> find_pii self (get_text page).
Proof.
  intros Hpage. unfold fresh_detections, enumerate.
  rewrite (imap_ext _ (λ i page, (0 + i, page))) by done.
  by rewrite page_dets_pages, Nat.sub_0_r, Hpage, decide_True by lia.
Qed.

Lemma new_events W self f st :
  drop (length (trace st)) (trace (exec (process_file W self f) st).1)
  = e_trace (file_effect W self f).
Proof.
  rewrite exec_summary, summary_process_file.
  cbn [fst apply_effect trace]. by rewrite drop_app_length.
Qed.

(** C1. In a redact run the marks put on a page of a document are those of
    the cached detections of that page when the cache has an entry for the
    document, whatever the configuration of the run finds; they are those
    of the fresh detections of the page when it has none.  When the cache is
    the one an earlier run over the document left, the marks are those of
    what that run detected on the page. *)
Theorem preview_redact_parity (W : World) (earlier self : WorkerThread)
    (f dir : str) (doc : list Page) (page_num : nat) (page : Page)
    (st : state) :
  fitz_open W f = inr doc →
  doc !! page_num = Some page →
  output_dir self = Some dir →
  let new := drop (length (trace st)) (trace (exec (process_file W self f) st).1) in
  (∀ cached, preview_data self !! f = Some cached →
     annots_on f page_num new
     = marks self f page_num page (page_dets cached page_num))
  ∧ (preview_data self !! f = None →
     annots_on f page_num new
     = marks self f page_num page
         (with_page (page_num + 1) <$> find_pii self (get_text page)))
  ∧ (f ∈ files earlier →
     preview_data self = res_preview_data (res (run W earlier).1) →
     annots_on f page_num new
     = marks self f page_num page
         (with_page (page_num + 1) <$> find_pii earlier (get_text page))).
Proof.
  intros Hopen Hpage Hdir new.
  assert (annots_on f page_num new
          = marks self f page_num page
              (page_dets (planned self f (fresh_detections self doc)) page_num))
    as Hnew.
  { unfold new. rewrite new_events, file_trace.
    rewrite (attempt_trace_redact _ _ dir _ doc) by done.
    unfold annots_on at 1. rewrite filter_cons_False by (simpl; tauto).
    by apply annots_on_redact_trace. }
  unfold planned in Hnew. split_and!.
  - intros cached Hc. by rewrite Hnew, Hc.
  - intros Hc. rewrite Hnew, Hc. simpl. by rewrite (page_dets_fresh _ _ _ page).
  - intros Hf Hcache. rewrite Hnew, Hcache.
    rewrite (run_preview_data _ _ _ doc) by done. simpl.
    by rewrite (page_dets_fresh _ _ _ page).
Qed.

(** ** Determinism *)

Lemma candidates_same self1 self2 text :
  detection_cfg self1 = detection_cfg self2 →
  custom_words self1 = custom_words self2 →
  candidates self1 text = candidates self2 text.
Proof.
  intros Hcfg Hwords.
  unfold candidates, category, custom_hits, enabled. by rewrite Hcfg, Hwords.
Qed.

Lemma fresh_detections_same self1 self2 doc :
  (∀ text, find_pii self1 text = find_pii self2 text) →
  fresh_detections self1 doc = fresh_detections self2 doc.
Proof.
  intros Hsame. unfold fresh_detections.
  induction (enumerate doc) as [|pp pps IH]; [done|].
  by rewrite !bind_cons, IH, Hsame.
Qed.

(** C5. What [find_pii] returns is fixed by the page text, the detection
    settings and the custom phrases: two workers that agree on the last two
    return the same list on every text, whatever their other fields hold.
    Two detection-only runs over the same files in the same world end in the
    same state. *)
Theorem detection_is_deterministic (self1 self2 : WorkerThread) (text : str) :
  detection_cfg self1 = detection_cfg self2 →
  custom_words self1 = custom_words self2 →
  find_pii self1 text = find_pii self2 text
  ∧ (∀ W, files self1 = files self2 →
          output_dir self1 = None → output_dir self2 = None →
          run W self1 = run W self2).
Proof.
  intros Hcfg Hwords.
  assert (∀ t, find_pii self1 t = find_pii self2 t) as Hsame.
  { intros t. unfold find_pii. by rewrite (candidates_same self1 self2). }
  split; [apply Hsame|].
  intros W Hfiles Hdir1 Hdir2. rewrite !run_summary, Hfiles.
  do 3 f_equal. apply list_fmap_ext. intros i f _.
  unfold file_effect, attempt_outcome, handler_effect, is_preview.
  rewrite Hdir1, Hdir2. cbv zeta.
  destruct (fitz_open W f) as [e|doc]; [done|].
  by rewrite (fresh_detections_same self1 self2).
Qed.

End pipeline.

(** ** Worked inputs *)

#[local] Existing Instance ascii_only.

(** The scenario of the specification: four detections in text order. *)
Example find_pii_contact_line :
  find_pii demo_worker contact_line
  = [ Detection (u "John") "NAME" 8 None;
      Detection (u "555-123-4567") "PHONE" 22 None;
      Detection (u "jsmith@example.com") "EMAIL" 38 None;
      Detection (u "123-45-6789") "SSN" 62 None ].
Proof. by vm_compute. Qed.

(** A redact run with every category off that holds the cache of a preview
    run over the same document. *)
Lemma preview_redact_parity_witness :
  fitz_open one_ssn_world (u "a.pdf") = inr [ssn_page]
  ∧ [ssn_page] !! 0 = Some ssn_page
  ∧ output_dir redact_worker = Some (u "out")
  ∧ (let new := drop (length (trace init_state))
                  (trace (exec (process_file one_ssn_world redact_worker
                                  (u "a.pdf"))
                            init_state).1) in
     (∀ cached, preview_data redact_worker !! u "a.pdf" = Some cached →
        annots_on (u "a.pdf") 0 new
        = marks redact_worker (u "a.pdf") 0 ssn_page (page_dets cached 0))
     ∧ (preview_data redact_worker !! u "a.pdf" = None →
        annots_on (u "a.pdf") 0 new
        = marks redact_worker (u "a.pdf") 0 ssn_page
            (with_page (0 + 1) <$> find_pii redact_worker (get_text ssn_page)))
     ∧ (u "a.pdf" ∈ files preview_worker →
        preview_data redact_worker
        = res_preview_data (res (run one_ssn_world preview_worker).1) →
        annots_on (u "a.pdf") 0 new
        = marks redact_worker (u "a.pdf") 0 ssn_page
            (with_page (0 + 1) <$> find_pii preview_worker (get_text ssn_page)))).
Proof.
  split; [reflexivity|]. split; [reflexivity|]. split; [reflexivity|].
  apply (preview_redact_parity one_ssn_world preview_worker redact_worker
           (u "a.pdf") (u "out") [ssn_page] 0 ssn_page init_state); reflexivity.
Defined.

(** The marks of that redact run: the cached social security number is
    marked although the run itself detects nothing. *)
Example redact_uses_the_cache :
  find_pii redact_worker (get_text ssn_page) = []
  ∧ annots_on (u "a.pdf") 0
      (trace (run one_ssn_world redact_worker).1)
    = [EvRedactLabel (u "a.pdf") 0 (mkRect 0 0 10 10) (u "[SSN]")].
Proof. split; by vm_compute. Qed.

(** C2 as stated fails: with every category on, a run of sixteen digits is
    one credit card detection; with credit cards off the same span comes
    back as a bank account detection, so the detections of the other
    categories have changed. *)
Lemma category_independence_counterexample :
  ("credit_card", "CREDIT_CARD") ∈ CATEGORIES
  ∧ find_pii demo_worker (u "1234567812345678")
    = [Detection (u "1234567812345678") "CREDIT_CARD" 0 None]
  ∧ filter (other_type "CREDIT_CARD")
      (find_pii demo_worker (u "1234567812345678"))
    = []
  ∧ filter (other_type "CREDIT_CARD")
      (find_pii (disable "credit_card" demo_worker) (u "1234567812345678"))
    = [Detection (u "1234567812345678") "BANK_ACCOUNT" 0 None].
Proof.
  split; [do 3 right; by left|]. split_and!; by vm_compute.
Qed.

(** What does hold on that input. *)
Lemma disable_category_witness :
  ("credit_card", "CREDIT_CARD") ∈ CATEGORIES
  ∧ ((∀ d, d ∈ find_pii (disable "credit_card" demo_worker)
                 (u "1234567812345678") →
           d_type d ≠ "CREDIT_CARD")
     ∧ filter (other_type "CREDIT_CARD")
         (find_pii demo_worker (u "1234567812345678"))
         `sublist_of` find_pii (disable "credit_card" demo_worker)
                        (u "1234567812345678")
     ∧ (∀ d, d ∈ find_pii (disable "credit_card" demo_worker)
                   (u "1234567812345678") →
             d ∉ find_pii demo_worker (u "1234567812345678") →
             ∃ d', d' ∈ find_pii demo_worker (u "1234567812345678")
                   ∧ d_type d' = "CREDIT_CARD"
                   ∧ dedup_key d' = dedup_key d)).
Proof.
  split; [do 3 right; by left|].
  apply (disable_category demo_worker "credit_card" "CREDIT_CARD"
           (u "1234567812345678")).
  do 3 right. by left.
Defined.

(** The first two detections of the contact line. *)
Lemma find_pii_ordered_witness :
  find_pii demo_worker contact_line !! 0
  = Some (Detection (u "John") "NAME" 8 None)
  ∧ find_pii demo_worker contact_line !! (0 + 1)
    = Some (Detection (u "555-123-4567") "PHONE" 22 None)
  ∧ d_start (Detection (u "John") "NAME" 8 None)
    ≤ d_start (Detection (u "555-123-4567") "PHONE" 22 None).
Proof.
  split; [by vm_compute|]. split; [by vm_compute|].
  apply (find_pii_ordered demo_worker contact_line 0); by vm_compute.
Defined.

(** Two workers that differ in their files, output directory and cache. *)
Lemma detection_is_deterministic_witness :
  detection_cfg demo_worker = detection_cfg stale_cache_worker
  ∧ custom_words demo_worker = custom_words stale_cache_worker
  ∧ (find_pii demo_worker contact_line = find_pii stale_cache_worker contact_line
     ∧ (∀ W, files demo_worker = files stale_cache_worker →
             output_dir demo_worker = None → output_dir stale_cache_worker = None →
             run W demo_worker = run W stale_cache_worker)).
Proof.
  split; [reflexivity|]. split; [reflexivity|].
  apply (detection_is_deterministic demo_worker stale_cache_worker contact_line);
    reflexivity.
Defined.

(** C8 as stated fails: the phrase stands at offsets 0 and 1 of the page,
    and the scan reports offset 0 only. *)
Lemma custom_phrase_counterexample :
  u "aa" ∈ custom_words aa_worker
  ∧ occurs_at (u "aa") (u "aaa") 0
  ∧ occurs_at (u "aa") (u "aaa") 1
  ∧ candidates aa_worker (u "aaa") = [Detection (u "aa") "CUSTOM" 0 None].
Proof.
  split; [by left|].
  split_and!; [| |by vm_compute];
    (split; [vm_compute; lia|repeat constructor; by left]).
Qed.

(** The example of the specification: the phrase is found in capitals, with
    the text as the page has it. *)
Example custom_phrase_in_capitals :
  candidates project_worker (u "see PROJECT-123 and project-123")
  = [ Detection (u "PROJECT-123") "CUSTOM" 4 None;
      Detection (u "project-123") "CUSTOM" 20 None ].
Proof. by vm_compute. Qed.

(** The phrase of the specification's example. *)
Lemma custom_phrase_matches_witness :
  u "Project-123" ∈ custom_words project_worker
  ∧ (let text := u "see PROJECT-123 and project-123" in
     let found := hits "CUSTOM" true text (re_escape (u "Project-123")) in
     let n := length (u "Project-123") in
     (∀ d, d ∈ found →
        d ∈ candidates project_worker text
        ∧ d_type d = "CUSTOM"
        ∧ occurs_at (u "Project-123") text (d_start d)
        ∧ d_text d = take n (drop (d_start d) text))
     ∧ (∀ p, occurs_at (u "Project-123") text p →
          ∃ d, d ∈ found ∧ d_start d ≤ p ∧ (p = d_start d ∨ p < d_start d + n))
     ∧ StronglySorted (λ d1 d2, d_start d1 + max 1 n ≤ d_start d2) found
     ∧ (∀ d, d ∈ candidates project_worker text →
          d_type d = "CUSTOM" →
          ∃ w', w' ∈ custom_words project_worker
                ∧ d ∈ hits "CUSTOM" true text (re_escape w'))).
Proof.
  split; [by left|].
  apply (custom_phrase_matches project_worker
           (u "see PROJECT-123 and project-123") (u "Project-123")).
  by left.
Defined.

(** One date of each of the three formats, and a date whose year has two
    digits, which no rule takes. *)
Example dob_three_formats :
  find_pii demo_worker (u "01/02/1999 2001-3-4 March 5, 2020 01/02/99")
  = [ Detection (u "01/02/1999") "DOB" 0 None;
      Detection (u "2001-3-4") "DOB" 11 None;
      Detection (u "March 5, 2020") "DOB" 20 None ].
Proof. by vm_compute. Qed.

Lemma literal_format_length t : literal_format t → 9 ≤ length t.
Proof.
  intros [(mm & dd & yyyy & -> & [Hm _] & [Hd _] & [Hy _])
         |[(yyyy & mm & dd & -> & [Hy _] & [Hm _] & [Hd _])
          |(mon & dd & yyyy & -> & _ & [Hd _] & [Hy _])]];
    rewrite !length_app; simpl; lia.
Qed.

(** C9 as stated fails: a date with hyphens and a month and a day of one
    digit is a date-of-birth detection, and it is written in none of the
    three formats that the claim names. *)
Lemma dob_formats_counterexample :
  Detection (u "1-2-1999") "DOB" 5 None ∈ find_pii dob_worker (u "born 1-2-1999")
  ∧ ¬ literal_format (d_text (Detection (u "1-2-1999") "DOB" 5 None)).
Proof.
  split; [vm_compute; by left|].
  intros Hlen%literal_format_length. vm_compute in Hlen. lia.
Qed.

(** The first document cannot be opened; the run completes, reports the
    failure and redacts the second. *)
Example first_fails_second_is_redacted :
  (run second_opens_world two_file_worker).2 = inr tt
  ∧ output (res (run second_opens_world two_file_worker).1)
    = failure_line second_opens_world (u "bad.pdf") (u "cannot open file")
      ++ success_line second_opens_world (u "out") (u "a.pdf")
  ∧ EvSaved (u "a.pdf") (u "out/a.pdf_REDACTED.pdf")
      ∈ trace (run second_opens_world two_file_worker).1.
Proof.
  split_and!; [by vm_compute|by vm_compute|].
  vm_compute. do 4 right. by left.
Qed.
